(** * udpx core: byte-cursor codec, address codec, packet tags and filters

    A shallow embedding of [modules/core] (package [core]) of udpx, and the
    properties of its wire format.

    Conventions of the embedding:
    - a Go [byte], [uint16], [uint32], [uint64] is a [Z] in its range, and
      every conversion or arithmetic operation that can leave the range has
      its wrap-around written out ([to_byte], [to_uint16], ...);
    - a Go [int] is a 64-bit signed integer ([to_int]);
    - a Go slice [[]byte] is a [list Z] (length and capacity coincide);
    - an index or slice expression that is out of range panics: every
      operation that can panic returns [option], and [None] is the panic;
    - a pointer parameter ([index *int], [value *T]) is passed in and
      returned: the value stored behind the pointer when the call is over. *)

From Stdlib Require Import ZArith List Lia Bool.
From stdpp Require Import base tactics option list numbers.

Local Open Scope Z_scope.

(** ** Machine integers *)

Module GoInt.

Definition to_byte (z : Z) : Z := z mod 2 ^ 8.
Definition to_uint16 (z : Z) : Z := z mod 2 ^ 16.
Definition to_uint32 (z : Z) : Z := z mod 2 ^ 32.
Definition to_uint64 (z : Z) : Z := z mod 2 ^ 64.

(** [int] is 64 bits wide on the platforms the service runs on. *)
Definition max_int : Z := 2 ^ 63 - 1.
Definition min_int : Z := - 2 ^ 63.
Definition to_int (z : Z) : Z := (z + 2 ^ 63) mod 2 ^ 64 - 2 ^ 63.

Definition int_add (a b : Z) : Z := to_int (a + b).
Definition int_sub (a b : Z) : Z := to_int (a - b).

Definition is_byte (z : Z) : Prop := 0 <= z < 2 ^ 8.
Definition is_uint16 (z : Z) : Prop := 0 <= z < 2 ^ 16.
Definition is_uint32 (z : Z) : Prop := 0 <= z < 2 ^ 32.
Definition is_uint64 (z : Z) : Prop := 0 <= z < 2 ^ 64.
Definition is_int (z : Z) : Prop := min_int <= z <= max_int.

(** Byte arithmetic: [a + b], [a - b] on operands of type [byte]. *)
Definition byte_add (a b : Z) : Z := to_byte (a + b).
Definition byte_sub (a b : Z) : Z := to_byte (a - b).

End GoInt.
Import GoInt.

(** ** Slices *)

Module Slice.

(** [len(data)] *)
Definition len (data : list Z) : Z := Z.of_nat (length data).

(** [data[i]] as an rvalue. *)
Definition load (data : list Z) (i : Z) : option Z :=
  if decide (0 <= i) then data !! Z.to_nat i else None.

(** [data[i] = v]. *)
Definition store (data : list Z) (i : Z) (v : Z) : option (list Z) :=
  if decide (0 <= i < len data) then Some (<[Z.to_nat i := v]> data) else None.

(** [data[lo:]]. *)
Definition from (data : list Z) (lo : Z) : option (list Z) :=
  if decide (0 <= lo <= len data) then Some (drop (Z.to_nat lo) data) else None.

(** [data[lo:hi]]. *)
Definition sub (data : list Z) (lo hi : Z) : option (list Z) :=
  if decide (0 <= lo <= hi /\ hi <= len data)
  then Some (take (Z.to_nat (hi - lo)) (drop (Z.to_nat lo) data))
  else None.

(** A slice [data[lo:]] shares its storage with [data]: after the callee
    has turned the sub-slice into [b'], the caller sees [data] with its
    tail replaced. *)
Definition rejoin (data : list Z) (lo : Z) (b' : list Z) : list Z :=
  take (Z.to_nat lo) data ++ b'.

(** [copy(dst, src)]: copies [min(len(dst), len(src))] elements, never
    panics. *)
Definition copy (dst src : list Z) : list Z :=
  take (length dst) src ++ drop (length src) dst.

(** [make([]byte, n)]. *)
Definition make (n : Z) : list Z := replicate (Z.to_nat n) 0.

End Slice.

(** ** encoding/binary, little endian *)

Module LittleEndian.

Definition PutUint16 (b : list Z) (v : Z) : option (list Z) :=
  _ ← Slice.load b 1;
  b ← Slice.store b 0 (to_byte v);
  Slice.store b 1 (to_byte (Z.shiftr v 8)).

Definition PutUint32 (b : list Z) (v : Z) : option (list Z) :=
  _ ← Slice.load b 3;
  b ← Slice.store b 0 (to_byte v);
  b ← Slice.store b 1 (to_byte (Z.shiftr v 8));
  b ← Slice.store b 2 (to_byte (Z.shiftr v 16));
  Slice.store b 3 (to_byte (Z.shiftr v 24)).

Definition PutUint64 (b : list Z) (v : Z) : option (list Z) :=
  _ ← Slice.load b 7;
  b ← Slice.store b 0 (to_byte v);
  b ← Slice.store b 1 (to_byte (Z.shiftr v 8));
  b ← Slice.store b 2 (to_byte (Z.shiftr v 16));
  b ← Slice.store b 3 (to_byte (Z.shiftr v 24));
  b ← Slice.store b 4 (to_byte (Z.shiftr v 32));
  b ← Slice.store b 5 (to_byte (Z.shiftr v 40));
  b ← Slice.store b 6 (to_byte (Z.shiftr v 48));
  Slice.store b 7 (to_byte (Z.shiftr v 56)).

(** [uintN(b[i]) << k]: the shift is done at width N. *)
Definition shl16 (x k : Z) : Z := to_uint16 (Z.shiftl x k).
Definition shl32 (x k : Z) : Z := to_uint32 (Z.shiftl x k).
Definition shl64 (x k : Z) : Z := to_uint64 (Z.shiftl x k).

Definition Uint16 (b : list Z) : option Z :=
  _ ← Slice.load b 1;
  b0 ← Slice.load b 0;
  b1 ← Slice.load b 1;
  Some (Z.lor b0 (shl16 b1 8)).

Definition Uint32 (b : list Z) : option Z :=
  _ ← Slice.load b 3;
  b0 ← Slice.load b 0;
  b1 ← Slice.load b 1;
  b2 ← Slice.load b 2;
  b3 ← Slice.load b 3;
  Some (Z.lor (Z.lor (Z.lor b0 (shl32 b1 8)) (shl32 b2 16)) (shl32 b3 24)).

Definition Uint64 (b : list Z) : option Z :=
  _ ← Slice.load b 7;
  b0 ← Slice.load b 0;
  b1 ← Slice.load b 1;
  b2 ← Slice.load b 2;
  b3 ← Slice.load b 3;
  b4 ← Slice.load b 4;
  b5 ← Slice.load b 5;
  b6 ← Slice.load b 6;
  b7 ← Slice.load b 7;
  Some (Z.lor (Z.lor (Z.lor (Z.lor (Z.lor (Z.lor (Z.lor
          b0 (shl64 b1 8)) (shl64 b2 16)) (shl64 b3 24))
          (shl64 b4 32)) (shl64 b5 40)) (shl64 b6 48)) (shl64 b7 56)).

End LittleEndian.

(** ** math.FloatNNbits and math.FloatNNfrombits

    A [float32] ([float64]) value is 32 (64) bits of IEEE-754 data; the two
    library functions reinterpret those bits as an unsigned integer and back
    and perform no conversion.  A float is therefore represented by its bit
    pattern, which keeps signed zeros, infinities and every NaN payload
    distinct. *)

Module Float.

Record float32 : Set := F32 { bits32 : Z }.
Record float64 : Set := F64 { bits64 : Z }.

Definition Float32bits (f : float32) : Z := to_uint32 (bits32 f).
Definition Float32frombits (b : Z) : float32 := F32 (to_uint32 b).
Definition Float64bits (f : float64) : Z := to_uint64 (bits64 f).
Definition Float64frombits (b : Z) : float64 := F64 (to_uint64 b).

(** A value of the type: its bit pattern has the type's width. *)
Definition wf32 (f : float32) : Prop := is_uint32 (bits32 f).
Definition wf64 (f : float64) : Prop := is_uint64 (bits64 f).

Definition pos_zero64 : float64 := F64 0.
Definition neg_zero64 : float64 := F64 0x8000000000000000.
Definition pos_inf64 : float64 := F64 0x7FF0000000000000.
Definition neg_inf64 : float64 := F64 0xFFF0000000000000.
Definition quiet_nan64 : float64 := F64 0x7FF8000000000001.
Definition signalling_nan64 : float64 := F64 0x7FF0000000000001.
Definition neg_zero32 : float32 := F32 0x80000000.
Definition pos_inf32 : float32 := F32 0x7F800000.
Definition signalling_nan32 : float32 := F32 0x7F800001.

End Float.
Import Float.

(** ** The byte-cursor codec *)

Module Codec.

(** What a [ReadT(data, index, value)] call leaves behind: the returned
    boolean, and the contents of [*index] and [*value] when it returns. *)
Record read_result (T : Type) : Type :=
  ReadResult { rok : bool; rindex : Z; rvalue : T }.
Arguments ReadResult {T} _ _ _.
Arguments rok {T} _.
Arguments rindex {T} _.
Arguments rvalue {T} _.

(** *** Writers: return the buffer and [*index] after the call. *)

Definition WriteBool (data : list Z) (index : Z) (value : bool)
  : option (list Z * Z) :=
  data ← (if value then Slice.store data index 1
          else Slice.store data index 0);
  Some (data, int_add index 1).

Definition WriteUint8 (data : list Z) (index : Z) (value : Z)
  : option (list Z * Z) :=
  data ← Slice.store data index (to_byte value);
  Some (data, int_add index 1).

Definition WriteUint16 (data : list Z) (index : Z) (value : Z)
  : option (list Z * Z) :=
  b ← Slice.from data index;
  b ← LittleEndian.PutUint16 b value;
  Some (Slice.rejoin data index b, int_add index 2).

Definition WriteUint32 (data : list Z) (index : Z) (value : Z)
  : option (list Z * Z) :=
  b ← Slice.from data index;
  b ← LittleEndian.PutUint32 b value;
  Some (Slice.rejoin data index b, int_add index 4).

Definition WriteUint64 (data : list Z) (index : Z) (value : Z)
  : option (list Z * Z) :=
  b ← Slice.from data index;
  b ← LittleEndian.PutUint64 b value;
  Some (Slice.rejoin data index b, int_add index 8).

Definition WriteFloat32 (data : list Z) (index : Z) (value : float32)
  : option (list Z * Z) :=
  let uintValue := Float32bits value in
  WriteUint32 data index uintValue.

Definition WriteFloat64 (data : list Z) (index : Z) (value : float64)
  : option (list Z * Z) :=
  let uintValue := Float64bits value in
  WriteUint64 data index uintValue.

(** *** Readers *)

Definition ReadBool (data : list Z) (index : Z) (value : bool)
  : option (read_result bool) :=
  if decide (int_add index 1 > Slice.len data)
  then Some (ReadResult false index value)
  else
    b ← Slice.load data index;
    let value := if decide (b > 0) then true else false in
    Some (ReadResult true (int_add index 1) value).

Definition ReadUint8 (data : list Z) (index : Z) (value : Z)
  : option (read_result Z) :=
  if decide (int_add index 1 > Slice.len data)
  then Some (ReadResult false index value)
  else
    b ← Slice.load data index;
    Some (ReadResult true (int_add index 1) b).

Definition ReadUint16 (data : list Z) (index : Z) (value : Z)
  : option (read_result Z) :=
  if decide (int_add index 2 > Slice.len data)
  then Some (ReadResult false index value)
  else
    b ← Slice.from data index;
    v ← LittleEndian.Uint16 b;
    Some (ReadResult true (int_add index 2) v).

Definition ReadUint32 (data : list Z) (index : Z) (value : Z)
  : option (read_result Z) :=
  if decide (int_add index 4 > Slice.len data)
  then Some (ReadResult false index value)
  else
    b ← Slice.from data index;
    v ← LittleEndian.Uint32 b;
    Some (ReadResult true (int_add index 4) v).

Definition ReadUint64 (data : list Z) (index : Z) (value : Z)
  : option (read_result Z) :=
  if decide (int_add index 8 > Slice.len data)
  then Some (ReadResult false index value)
  else
    b ← Slice.from data index;
    v ← LittleEndian.Uint64 b;
    Some (ReadResult true (int_add index 8) v).

(** [var intValue uint32] starts as zero; [index] is the caller's pointer,
    so whatever [ReadUint32] did to it stays done. *)
Definition ReadFloat32 (data : list Z) (index : Z) (value : float32)
  : option (read_result float32) :=
  r ← ReadUint32 data index 0;
  if negb (rok r)
  then Some (ReadResult false (rindex r) value)
  else Some (ReadResult true (rindex r) (Float32frombits (rvalue r))).

Definition ReadFloat64 (data : list Z) (index : Z) (value : float64)
  : option (read_result float64) :=
  r ← ReadUint64 data index 0;
  if negb (rok r)
  then Some (ReadResult false (rindex r) value)
  else Some (ReadResult true (rindex r) (Float64frombits (rvalue r))).

(** The copy loop shared by [ReadString] and [ReadBytes]:
    [for i := uint32(0); i < n; i++ { dst[i] = data[*index]; *index++ }],
    started at [i] with [n] iterations to go. *)
Fixpoint read_loop (data : list Z) (n : nat) (i : Z) (dst : list Z)
  (index : Z) : option (list Z * Z) :=
  match n with
  | O => Some (dst, index)
  | S n =>
      c ← Slice.load data index;
      dst ← Slice.store dst i c;
      read_loop data n (to_uint32 (i + 1)) dst (int_add index 1)
  end.

(** A Go [string] is its bytes. *)
Definition ReadString (data : list Z) (index : Z) (value : list Z)
  (maxStringLength : Z) : option (read_result (list Z)) :=
  r ← ReadUint32 data index 0;
  if negb (rok r)
  then Some (ReadResult false (rindex r) value)
  else
    let stringLength := rvalue r in
    let index := rindex r in
    if decide (stringLength > maxStringLength)
    then Some (ReadResult false index value)
    else if decide (int_add index (to_int stringLength) > Slice.len data)
    then Some (ReadResult false index value)
    else
      let stringData := Slice.make stringLength in
      '(stringData, index) ←
        read_loop data (Z.to_nat stringLength) 0 stringData index;
      Some (ReadResult true index stringData).

Definition ReadBytes (data : list Z) (index : Z) (value : list Z)
  (bytes : Z) : option (read_result (list Z)) :=
  if decide (int_add index (to_int bytes) > Slice.len data)
  then Some (ReadResult false index value)
  else
    let value := Slice.make bytes in
    '(value, index) ← read_loop data (Z.to_nat bytes) 0 value index;
    Some (ReadResult true index value).

End Codec.
Import Codec.

(** ** net.IP and net.UDPAddr *)

Module Net.

(** [net.IP] is a byte slice; [nil] is the empty slice.  [*net.UDPAddr]
    is [option UDPAddr], [None] being the nil pointer. *)
Record UDPAddr : Set := MkUDPAddr { IP : list Z; Port : Z }.

Definition IPv4len : nat := 4.
Definition IPv6len : nat := 16.

Definition v4InV6Prefix : list Z := [0; 0; 0; 0; 0; 0; 0; 0; 0; 0; 0xff; 0xff].

(** [net.IPv4(a, b, c, d)]: the 16-byte form of an IPv4 address. *)
Definition IPv4 (a b c d : Z) : list Z := v4InV6Prefix ++ [a; b; c; d].

Definition isZeros (p : list Z) : bool := forallb (Z.eqb 0) p.

(** [ip.To4()]: [None] is the nil result. *)
Definition To4 (ip : list Z) : option (list Z) :=
  if decide (length ip = IPv4len) then Some ip
  else if decide (length ip = IPv6len
                  /\ isZeros (take 10 ip) = true
                  /\ ip !! 10%nat = Some 0xff
                  /\ ip !! 11%nat = Some 0xff)
  then Some (take 4 (drop 12 ip))
  else None.

(** [ip.Equal(x)]. *)
Definition Equal (ip x : list Z) : bool :=
  if decide (length ip = length x) then bool_decide (ip = x)
  else if decide (length ip = IPv4len /\ length x = IPv6len)
  then bool_decide (take 12 x = v4InV6Prefix) && bool_decide (ip = drop 12 x)
  else if decide (length ip = IPv6len /\ length x = IPv4len)
  then bool_decide (take 12 ip = v4InV6Prefix) && bool_decide (drop 12 ip = x)
  else false.

End Net.

(** ** The address codec *)

Module Address.
Import Net.

Definition IPAddressNone : Z := 0.
Definition IPAddressIPv4 : Z := 1.
Definition IPAddressIPv6 : Z := 2.
Definition AddressSize : Z := 19.

(** Returns the buffer after the call. *)
Definition WriteAddress (buffer : list Z) (address : option UDPAddr)
  : option (list Z) :=
  match address with
  | None => Slice.store buffer 0 IPAddressNone
  | Some address =>
      let ipv4 := To4 (IP address) in
      let port := Port address in
      match ipv4 with
      | Some ipv4 =>
          buffer ← Slice.store buffer 0 IPAddressIPv4;
          v ← Slice.load ipv4 0; buffer ← Slice.store buffer 1 v;
          v ← Slice.load ipv4 1; buffer ← Slice.store buffer 2 v;
          v ← Slice.load ipv4 2; buffer ← Slice.store buffer 3 v;
          v ← Slice.load ipv4 3; buffer ← Slice.store buffer 4 v;
          buffer ← Slice.store buffer 5 (to_byte (Z.land port 0xFF));
          Slice.store buffer 6 (to_byte (Z.shiftr port 8))
      | None =>
          buffer ← Slice.store buffer 0 IPAddressIPv6;
          b ← Slice.from buffer 1;
          let buffer := Slice.rejoin buffer 1 (Slice.copy b (IP address)) in
          buffer ← Slice.store buffer 17 (to_byte (Z.land port 0xFF));
          Slice.store buffer 18 (to_byte (Z.shiftr port 8))
      end
  end.

(** The outer [option] is the panic, the inner one the nil pointer.  In
    the IPv6 case the [IP] field is the slice [buffer[1:]] itself. *)
Definition ReadAddress (buffer : list Z) : option (option UDPAddr) :=
  addressType ← Slice.load buffer 0;
  if decide (addressType = IPAddressIPv4) then
    b1 ← Slice.load buffer 1;
    b2 ← Slice.load buffer 2;
    b3 ← Slice.load buffer 3;
    b4 ← Slice.load buffer 4;
    s ← Slice.from buffer 5;
    p ← LittleEndian.Uint16 s;
    Some (Some (MkUDPAddr (IPv4 b1 b2 b3 b4) (to_int p)))
  else if decide (addressType = IPAddressIPv6) then
    ip ← Slice.from buffer 1;
    s ← Slice.from buffer 17;
    p ← LittleEndian.Uint16 s;
    Some (Some (MkUDPAddr ip (to_int p)))
  else Some None.

(** Equality of two decoded addresses: both absent, or equal as
    [net.IP] values with the same port. *)
Definition same_address (a b : option UDPAddr) : bool :=
  match a, b with
  | None, None => true
  | Some a, Some b => Equal (IP a) (IP b) && bool_decide (Port a = Port b)
  | _, _ => false
  end.

(** The placeholder: [*addressPort] and [*addressBytes] are set to zero,
    nothing else is touched.  Returns the contents of [addressData],
    [*addressPort] and [*addressBytes] after the call. *)
Definition GetAddressData (address : option UDPAddr) (addressData : list Z)
  (addressPort : Z) (addressBytes : Z) : list Z * Z * Z :=
  let addressPort := 0 in
  let addressBytes := 0 in
  (addressData, addressPort, addressBytes).

End Address.

(** ** hash/fnv, 64-bit FNV-1a *)

Module Fnv.

Definition offset64 : Z := 14695981039346656037.
Definition prime64 : Z := 1099511628211.

Definition New64a : Z := offset64.

(** [hash ^= sum64a(c); hash *= prime64] for each byte of [data]. *)
Definition Write (hash : Z) (data : list Z) : Z :=
  fold_left (fun hash c => to_uint64 (Z.lxor hash c * prime64)) data hash.

Definition Sum64 (hash : Z) : Z := hash.

End Fnv.

(** ** bytes.Compare *)

Module Bytes.

Fixpoint Compare (a b : list Z) : Z :=
  match a, b with
  | [], [] => 0
  | [], _ :: _ => -1
  | _ :: _, [] => 1
  | x :: a, y :: b =>
      if decide (x < y) then -1
      else if decide (y < x) then 1
      else Compare a b
  end.

End Bytes.

(** ** Packet tags *)

Module Tag.

(** [for i := 0; i < len(address); i++ { sum += uint16(address[i]) }] *)
Definition sum_loop (sum : Z) (address : list Z) : Z :=
  fold_left (fun sum c => to_uint16 (sum + c)) address sum.

(** Returns [output] after the call. *)
Definition GeneratePittle (output : list Z) (fromAddress : list Z)
  (fromPort : Z) (toAddress : list Z) (toPort : Z) (packetLength : Z)
  : option (list Z) :=
  fromPortData ← LittleEndian.PutUint16 [0; 0] fromPort;
  toPortData ← LittleEndian.PutUint16 [0; 0] toPort;
  packetLengthData ←
    LittleEndian.PutUint32 [0; 0; 0; 0] (to_uint32 packetLength);
  let sum := 0 in
  let sum := sum_loop sum fromAddress in
  c ← Slice.load fromPortData 0; let sum := to_uint16 (sum + c) in
  c ← Slice.load fromPortData 1; let sum := to_uint16 (sum + c) in
  let sum := sum_loop sum toAddress in
  c ← Slice.load toPortData 0; let sum := to_uint16 (sum + c) in
  c ← Slice.load toPortData 1; let sum := to_uint16 (sum + c) in
  c ← Slice.load packetLengthData 0; let sum := to_uint16 (sum + c) in
  c ← Slice.load packetLengthData 1; let sum := to_uint16 (sum + c) in
  c ← Slice.load packetLengthData 2; let sum := to_uint16 (sum + c) in
  c ← Slice.load packetLengthData 3; let sum := to_uint16 (sum + c) in
  sumData ← LittleEndian.PutUint16 [0; 0] sum;
  s0 ← Slice.load sumData 0;
  s1 ← Slice.load sumData 1;
  output ← Slice.store output 0 (Z.lor 1 (Z.lxor (Z.lxor s0 s1) 193));
  o0 ← Slice.load output 0;
  Slice.store output 1 (Z.lor 1 (Z.lxor (byte_sub 255 o0) 113)).

(** The hash bytes [data] of [GenerateChonkle]: an [[8]byte] array filled
    by [PutUint64] from the FNV-1a sum. *)
Definition chonkle_hash (magic fromAddressData : list Z) (fromPort : Z)
  (toAddressData : list Z) (toPort : Z) (packetLength : Z)
  : option (list Z) :=
  fromPortData ← LittleEndian.PutUint16 [0; 0] fromPort;
  toPortData ← LittleEndian.PutUint16 [0; 0] toPort;
  packetLengthData ←
    LittleEndian.PutUint32 [0; 0; 0; 0] (to_uint32 packetLength);
  let hash := Fnv.New64a in
  let hash := Fnv.Write hash magic in
  let hash := Fnv.Write hash fromAddressData in
  let hash := Fnv.Write hash fromPortData in
  let hash := Fnv.Write hash toAddressData in
  let hash := Fnv.Write hash toPortData in
  let hash := Fnv.Write hash packetLengthData in
  let hashValue := Fnv.Sum64 hash in
  LittleEndian.PutUint64 [0; 0; 0; 0; 0; 0; 0; 0] (to_uint64 hashValue).

(** Returns [output] after the call. *)
Definition GenerateChonkle (output : list Z) (magic fromAddressData : list Z)
  (fromPort : Z) (toAddressData : list Z) (toPort : Z) (packetLength : Z)
  : option (list Z) :=
  data ← chonkle_hash magic fromAddressData fromPort toAddressData toPort
           packetLength;
  d0 ← Slice.load data 0; d1 ← Slice.load data 1;
  d2 ← Slice.load data 2; d3 ← Slice.load data 3;
  d4 ← Slice.load data 4; d5 ← Slice.load data 5;
  d6 ← Slice.load data 6; d7 ← Slice.load data 7;
  output ← Slice.store output 0
             (byte_add (Z.shiftr (Z.land d6 0xC0) 6) 42);
  output ← Slice.store output 1 (byte_add (Z.land d3 0x1F) 200);
  output ← Slice.store output 2
             (byte_add (Z.shiftr (Z.land d2 0xFC) 2) 5);
  output ← Slice.store output 3 d0;
  output ← Slice.store output 4 (byte_add (Z.land d2 0x03) 78);
  output ← Slice.store output 5 (byte_add (Z.land d4 0x7F) 96);
  output ← Slice.store output 6
             (byte_add (Z.shiftr (Z.land d1 0xFC) 2) 100);
  output ← (if decide (Z.land d7 1 = 0)
            then Slice.store output 7 79
            else Slice.store output 7 7);
  output ← (if decide (Z.land d4 0x80 = 0)
            then Slice.store output 8 37
            else Slice.store output 8 83);
  output ← Slice.store output 9 (byte_add (Z.land d5 0x07) 124);
  output ← Slice.store output 10
             (byte_add (Z.shiftr (Z.land d1 0xE0) 5) 175);
  output ← Slice.store output 11 (byte_add (Z.land d6 0x3F) 33);
  let value := Z.land d1 0x03 in
  output ← (if decide (value = 0) then Slice.store output 12 97
            else if decide (value = 1) then Slice.store output 12 5
            else if decide (value = 2) then Slice.store output 12 43
            else Slice.store output 12 13);
  output ← Slice.store output 13
             (byte_add (Z.shiftr (Z.land d5 0xF8) 3) 210);
  Slice.store output 14 (byte_add (Z.shiftr (Z.land d7 0xFE) 1) 17).

End Tag.

(** ** Packet filters *)

Module Filter.

Definition BasicPacketFilter (data : list Z) (packetLength : Z)
  : option bool :=
  if decide (packetLength < 18) then Some false else
  d ← Slice.load data 0;
  if decide (d < 0x01 \/ d > 0x63) then Some false else
  d ← Slice.load data 1;
  if decide (d < 0x2A \/ d > 0x2D) then Some false else
  d ← Slice.load data 2;
  if decide (d < 0xC8 \/ d > 0xE7) then Some false else
  d ← Slice.load data 3;
  if decide (d < 0x05 \/ d > 0x44) then Some false else
  d ← Slice.load data 5;
  if decide (d < 0x4E \/ d > 0x51) then Some false else
  d ← Slice.load data 6;
  if decide (d < 0x60 \/ d > 0xDF) then Some false else
  d ← Slice.load data 7;
  if decide (d < 0x64 \/ d > 0xE3) then Some false else
  d ← Slice.load data 8;
  if decide (d <> 0x07 /\ d <> 0x4F) then Some false else
  d ← Slice.load data 9;
  if decide (d <> 0x25 /\ d <> 0x53) then Some false else
  d ← Slice.load data 10;
  if decide (d < 0x7C \/ d > 0x83) then Some false else
  d ← Slice.load data 11;
  if decide (d < 0xAF \/ d > 0xB6) then Some false else
  d ← Slice.load data 12;
  if decide (d < 0x21 \/ d > 0x60) then Some false else
  d ← Slice.load data 13;
  if decide (d <> 0x61 /\ d <> 0x05 /\ d <> 0x2B /\ d <> 0x0D)
  then Some false else
  d ← Slice.load data 14;
  if decide (d < 0xD2 \/ d > 0xF1) then Some false else
  d ← Slice.load data 15;
  if decide (d < 0x11 \/ d > 0x90) then Some false else
  Some true.

Definition AdvancedPacketFilter (data : list Z) (magic fromAddress : list Z)
  (fromPort : Z) (toAddress : list Z) (toPort : Z) (packetLength : Z)
  : option bool :=
  if decide (packetLength < 18) then Some false else
  let a := replicate 15 0 in
  let b := replicate 2 0 in
  a ← Tag.GenerateChonkle a magic fromAddress fromPort toAddress toPort
        packetLength;
  b ← Tag.GeneratePittle b fromAddress fromPort toAddress toPort
        packetLength;
  a' ← Slice.sub a 0 15;
  d ← Slice.sub data 1 16;
  if decide (Bytes.Compare a' d <> 0) then Some false else
  b' ← Slice.sub b 0 2;
  d ← Slice.sub data (int_sub packetLength 2) packetLength;
  if decide (Bytes.Compare b' d <> 0) then Some false else
  Some true.

End Filter.

(** ** The wire contract in the words of the protocol description

    The definitions below do not follow the code: they state the tag
    formulas as arithmetic on numbers, for comparison with [Tag]. *)

Module Wire.

(** The [n] little-endian bytes of [v]. *)
Fixpoint le_bytes (n : nat) (v : Z) : list Z :=
  match n with
  | O => []
  | S n => v mod 256 :: le_bytes n (v / 256)
  end.

(** 64-bit FNV-1a of a byte string. *)
Fixpoint fnv1a64 (h : Z) (bytes : list Z) : Z :=
  match bytes with
  | [] => h
  | c :: bytes => fnv1a64 ((Z.lxor h c * 1099511628211) mod 2 ^ 64) bytes
  end.

Definition chonkle_input (magic fromAddress : list Z) (fromPort : Z)
  (toAddress : list Z) (toPort : Z) (packetLength : Z) : list Z :=
  magic ++ fromAddress ++ le_bytes 2 fromPort
    ++ toAddress ++ le_bytes 2 toPort ++ le_bytes 4 packetLength.

(** Byte [i] of the hash laid out as 8 little-endian bytes. *)
Definition hash_byte (h : Z) (i : nat) : Z := nth i (le_bytes 8 h) 0.

(** The 15-row table: source hash byte, mask and shift, constant. *)
Definition chonkle_table (h : Z) : list Z :=
  let d := hash_byte h in
  [ Z.shiftr (Z.land (d 6%nat) 0xC0) 6 + 42;
    Z.land (d 3%nat) 0x1F + 200;
    Z.shiftr (Z.land (d 2%nat) 0xFC) 2 + 5;
    d 0%nat;
    Z.land (d 2%nat) 0x03 + 78;
    Z.land (d 4%nat) 0x7F + 96;
    Z.shiftr (Z.land (d 1%nat) 0xFC) 2 + 100;
    if Z.testbit (d 7%nat) 0 then 7 else 79;
    if Z.testbit (d 4%nat) 7 then 83 else 37;
    Z.land (d 5%nat) 0x07 + 124;
    Z.shiftr (Z.land (d 1%nat) 0xE0) 5 + 175;
    Z.land (d 6%nat) 0x3F + 33;
    nth (Z.to_nat (d 1%nat mod 4)) [97; 5; 43; 13] 0;
    Z.shiftr (Z.land (d 5%nat) 0xF8) 3 + 210;
    Z.shiftr (Z.land (d 7%nat) 0xFE) 1 + 17 ].

Definition chonkle (magic fromAddress : list Z) (fromPort : Z)
  (toAddress : list Z) (toPort : Z) (packetLength : Z) : list Z :=
  chonkle_table
    (fnv1a64 14695981039346656037
       (chonkle_input magic fromAddress fromPort toAddress toPort
          packetLength)).

(** The sum of a byte string. *)
Definition byte_sum (bytes : list Z) : Z := foldr Z.add 0 bytes.

Definition pittle_input (fromAddress : list Z) (fromPort : Z)
  (toAddress : list Z) (toPort : Z) (packetLength : Z) : list Z :=
  fromAddress ++ le_bytes 2 fromPort
    ++ toAddress ++ le_bytes 2 toPort ++ le_bytes 4 packetLength.

Definition pittle (fromAddress : list Z) (fromPort : Z)
  (toAddress : list Z) (toPort : Z) (packetLength : Z) : list Z :=
  let sum :=
    byte_sum (pittle_input fromAddress fromPort toAddress toPort packetLength)
      mod 2 ^ 16 in
  let lo := sum mod 256 in
  let hi := sum / 256 in
  let o0 := Z.lor 1 (Z.lxor (Z.lxor lo hi) 193) in
  [ o0; Z.lor 1 (Z.lxor (255 - o0) 113) ].

End Wire.

(** ** Vocabulary of the statements *)

Module Props.

(** Writing [v] at [p] and reading the same type back at [p]: the write
    succeeds and leaves the cursor at [p + size], the bytes it produced
    are [wire v], and the read succeeds with [v] and the same cursor. *)
Definition round_trip {T : Type}
  (write : list Z -> Z -> T -> option (list Z * Z))
  (read : list Z -> Z -> T -> option (read_result T))
  (size : Z) (wire : T -> list Z)
  (data : list Z) (p : Z) (v old : T) : Prop :=
  exists data',
    write data p v = Some (data', p + size)
    /\ Slice.len data' = Slice.len data
    /\ Slice.sub data' p (p + size) = Some (wire v)
    /\ read data' p old = Some (ReadResult true (p + size) v).

(** [data'] is [data] with the byte at offset [i] changed. *)
Definition flipped_at (data data' : list Z) (i : Z) : Prop :=
  exists c, 0 <= i < Slice.len data
            /\ data' = <[Z.to_nat i := c]> data
            /\ data !! Z.to_nat i <> Some c.

(** The fixed-width readers test the bound before they touch anything:
    [false] is returned exactly when the test [*index + size > len(data)]
    succeeds, and then the cursor and the output are as before. *)
Definition fails_cleanly {T : Type}
  (read : list Z -> Z -> T -> option (read_result T)) (size : Z) : Prop :=
  forall data index value,
    (int_add index size > Slice.len data ->
     read data index value = Some (ReadResult false index value))
    /\ (forall r, read data index value = Some r -> rok r = false ->
          int_add index size > Slice.len data
          /\ rindex r = index /\ rvalue r = value).

(** The offsets [BasicPacketFilter] looks at. *)
Definition checked_offsets : list Z :=
  [0; 1; 2; 3; 5; 6; 7; 8; 9; 10; 11; 12; 13; 14; 15].

(** The 256 values of a byte, for properties decided by enumeration. *)
Definition all_bytes : list Z := map Z.of_nat (seq 0 256).

End Props.

(** ** Strings and byte blocks: the writers *)

Module Blocks.

(** The copy loop shared by [WriteString] and [WriteBytes]:
    [for i := 0; i < n; i++ { data[*index] = value[i]; *index++ }],
    started at [i] with [n] iterations to go. *)
Fixpoint write_loop (value : list Z) (n : nat) (i : Z) (data : list Z)
  (index : Z) : option (list Z * Z) :=
  match n with
  | O => Some (data, index)
  | S n =>
      c ← Slice.load value i;
      data ← Slice.store data index c;
      write_loop value n (int_add i 1) data (int_add index 1)
  end.

(** [None] is the panic: the explicit one for a string that is too long,
    or an index out of range. *)
Definition WriteString (data : list Z) (index : Z) (value : list Z)
  (maxStringLength : Z) : option (list Z * Z) :=
  let stringLength := to_uint32 (Slice.len value) in
  if decide (stringLength > maxStringLength) then None
  else
    b ← Slice.from data index;
    b ← LittleEndian.PutUint32 b stringLength;
    let data := Slice.rejoin data index b in
    let index := int_add index 4 in
    write_loop value (Z.to_nat (to_int stringLength)) 0 data index.

Definition WriteBytes (data : list Z) (index : Z) (value : list Z)
  (numBytes : Z) : option (list Z * Z) :=
  write_loop value (Z.to_nat numBytes) 0 data index.

End Blocks.
Import Blocks.

(** ** Vocabulary of the further statements *)

Module Frame.

(** A writer of a fixed width: it returns exactly when the window
    [[p, p + size)] lies in the buffer, and then the buffer keeps its
    length and every byte outside the window, and the cursor has moved by
    [size]. *)
Definition writes_window {T : Type}
  (write : list Z -> Z -> T -> option (list Z * Z)) (size : Z) : Prop :=
  forall data p v,
    (is_Some (write data p v) <-> 0 <= p /\ p + size <= Slice.len data)
    /\ (forall data' p', write data p v = Some (data', p') ->
          p' = int_add p size
          /\ Slice.len data' = Slice.len data
          /\ take (Z.to_nat p) data' = take (Z.to_nat p) data
          /\ drop (Z.to_nat (p + size)) data'
             = drop (Z.to_nat (p + size)) data).

(** A reader of a fixed width looks at the window only: on two buffers of
    the same length that agree on [[p, p + size)] it gives the same
    result. *)
Definition reads_window {T : Type}
  (read : list Z -> Z -> T -> option (read_result T)) (size : Z) : Prop :=
  forall data1 data2 p old,
    Slice.len data1 = Slice.len data2 ->
    Slice.sub data1 p (p + size) = Slice.sub data2 p (p + size) ->
    read data1 p old = read data2 p old.

(** With a negative cursor a reader never succeeds: it reports failure
    when its bound test fires and panics otherwise. *)
Definition negative_cursor {T : Type}
  (read : list Z -> Z -> T -> option (read_result T)) (size : Z) : Prop :=
  forall data index value,
    min_int <= index < 0 ->
    read data index value
    = if decide (index + size > Slice.len data)
      then Some (ReadResult false index value)
      else None.

(** What a reader of width [n] does: inside the buffer it decodes the
    window when its bound test lets it through, outside it fails on the
    test or panics. *)
Definition reads_cells {T : Type}
  (read : list Z -> Z -> T -> option (read_result T)) (n : nat)
  (dec : list Z -> T) : Prop :=
  (forall pre mid post old,
     length mid = n ->
     read (pre ++ mid ++ post) (Slice.len pre) old
     = if decide (int_add (Slice.len pre) (Z.of_nat n)
                  > Slice.len (pre ++ mid ++ post))
       then Some (ReadResult false (Slice.len pre) old)
       else Some (ReadResult true (int_add (Slice.len pre) (Z.of_nat n))
                    (dec mid)))
  /\ (forall data p old,
        ~ (0 <= p /\ p + Z.of_nat n <= Slice.len data) ->
        read data p old
        = if decide (int_add p (Z.of_nat n) > Slice.len data)
          then Some (ReadResult false p old)
          else None).

(** With a cursor so large that the bound test [*index + size] wraps
    around, a reader panics. *)
Definition overflowing_cursor {T : Type}
  (read : list Z -> Z -> T -> option (read_result T)) (size : Z) : Prop :=
  forall data index value,
    max_int - size < index <= max_int ->
    Slice.len data <= max_int ->
    read data index value = None.

End Frame.

(** * Properties *)

(** ** Integers *)

Section IntFacts.

Lemma to_int_id z : is_int z -> to_int z = z.
Proof.
  unfold is_int, min_int, max_int, to_int. intros H.
  rewrite Z.mod_small; lia.
Qed.

Lemma int_add_id a b : is_int (a + b) -> int_add a b = a + b.
Proof. apply to_int_id. Qed.

Lemma to_byte_range z : is_byte (to_byte z).
Proof. unfold is_byte, to_byte. apply Z.mod_pos_bound. lia. Qed.

Lemma to_byte_id z : is_byte z -> to_byte z = z.
Proof. unfold is_byte, to_byte. intros H. apply Z.mod_small. lia. Qed.

(** [a | b << k] adds when [a] fits below bit [k]. *)
Lemma lor_shiftl_add a b k :
  0 <= k -> 0 <= a < 2 ^ k -> Z.lor a (Z.shiftl b k) = a + b * 2 ^ k.
Proof.
  intros Hk Ha.
  rewrite Z.shiftl_mul_pow2 by lia.
  rewrite <- Z.lxor_lor, <- Z.add_nocarry_lxor; trivial.
  all: apply Z.bits_inj'; intros n Hn; rewrite Z.land_spec, Z.bits_0.
  all: destruct (Z.lt_ge_cases n k) as [Hlt|Hge].
  all: try (rewrite Z.mul_pow2_bits_low by lia; apply andb_false_r).
  all: rewrite <- (Z.mod_small a (2 ^ k)) by lia.
  all: rewrite Z.mod_pow2_bits_high by lia; reflexivity.
Qed.

Lemma le_value16 v :
  is_uint16 v ->
  to_byte v + to_byte (Z.shiftr v 8) * 2 ^ 8 = v.
Proof.
  unfold is_uint16, to_byte. intros H.
  rewrite !Z.shiftr_div_pow2 by lia.
  Z.div_mod_to_equations. lia.
Qed.

Lemma le_value32 v :
  is_uint32 v ->
  to_byte v + to_byte (Z.shiftr v 8) * 2 ^ 8
    + to_byte (Z.shiftr v 16) * 2 ^ 16
    + to_byte (Z.shiftr v 24) * 2 ^ 24 = v.
Proof.
  unfold is_uint32, to_byte. intros H.
  rewrite !Z.shiftr_div_pow2 by lia.
  Z.div_mod_to_equations. lia.
Qed.

Lemma le_value64 v :
  is_uint64 v ->
  to_byte v + to_byte (Z.shiftr v 8) * 2 ^ 8
    + to_byte (Z.shiftr v 16) * 2 ^ 16
    + to_byte (Z.shiftr v 24) * 2 ^ 24
    + to_byte (Z.shiftr v 32) * 2 ^ 32
    + to_byte (Z.shiftr v 40) * 2 ^ 40
    + to_byte (Z.shiftr v 48) * 2 ^ 48
    + to_byte (Z.shiftr v 56) * 2 ^ 56 = v.
Proof.
  unfold is_uint64, to_byte. intros H.
  rewrite !Z.shiftr_div_pow2 by lia.
  Z.div_mod_to_equations. lia.
Qed.

End IntFacts.

(** ** Slices *)

Section SliceFacts.

Lemma len_app a b : Slice.len (a ++ b) = Slice.len a + Slice.len b.
Proof. unfold Slice.len. rewrite length_app. lia. Qed.

Lemma len_cons x a : Slice.len (x :: a) = 1 + Slice.len a.
Proof. unfold Slice.len. simpl length. lia. Qed.

Lemma len_nonneg a : 0 <= Slice.len a.
Proof. unfold Slice.len. lia. Qed.

Lemma load_Some data i :
  0 <= i -> Slice.load data i = data !! Z.to_nat i.
Proof. intros H. unfold Slice.load. rewrite decide_True; trivial. Qed.

Lemma load_None data i :
  ~ 0 <= i < Slice.len data -> Slice.load data i = None.
Proof.
  intros H. unfold Slice.load, Slice.len in *. case_decide; trivial.
  apply lookup_ge_None. lia.
Qed.

Lemma load_is_Some data i :
  0 <= i < Slice.len data -> exists c, Slice.load data i = Some c.
Proof.
  intros H. rewrite load_Some by lia.
  destruct (lookup_lt_is_Some_2 data (Z.to_nat i)) as [c Hc]; eauto.
  unfold Slice.len in H. lia.
Qed.

Lemma store_Some data i v :
  0 <= i < Slice.len data ->
  Slice.store data i v = Some (<[Z.to_nat i := v]> data).
Proof. intros H. unfold Slice.store. rewrite decide_True; trivial. Qed.

Lemma store_None data i v :
  ~ 0 <= i < Slice.len data -> Slice.store data i v = None.
Proof. intros H. unfold Slice.store. rewrite decide_False; trivial. Qed.

Lemma store_len data i v data' :
  Slice.store data i v = Some data' -> Slice.len data' = Slice.len data.
Proof.
  unfold Slice.store. case_decide; [|discriminate].
  intros [= <-]. unfold Slice.len. rewrite length_insert. trivial.
Qed.

(** [data[len(pre):]] of [pre ++ tail] is [tail], and writing through it
    replaces [tail]. *)
Lemma from_app pre tail :
  Slice.from (pre ++ tail) (Slice.len pre) = Some tail.
Proof.
  unfold Slice.from. rewrite decide_True.
  - unfold Slice.len. rewrite Nat2Z.id, drop_app_length. trivial.
  - rewrite len_app. pose proof (len_nonneg pre). pose proof (len_nonneg tail).
    lia.
Qed.

Lemma from_None data lo :
  ~ 0 <= lo <= Slice.len data -> Slice.from data lo = None.
Proof. intros H. unfold Slice.from. rewrite decide_False; trivial. Qed.

Lemma rejoin_app pre tail b :
  Slice.rejoin (pre ++ tail) (Slice.len pre) b = pre ++ b.
Proof.
  unfold Slice.rejoin, Slice.len. rewrite Nat2Z.id, take_app_length. trivial.
Qed.

(** A buffer with [n] bytes of room at [p] splits there. *)
Lemma split_at (data : list Z) p (n : nat) :
  0 <= p -> p + Z.of_nat n <= Slice.len data ->
  exists pre mid post,
    data = pre ++ mid ++ post /\ Slice.len pre = p /\ length mid = n.
Proof.
  intros Hp Hn. unfold Slice.len in *.
  exists (take (Z.to_nat p) data),
         (take n (drop (Z.to_nat p) data)),
         (drop n (drop (Z.to_nat p) data)).
  rewrite !take_drop. split; [trivial|].
  rewrite !length_take, length_drop. lia.
Qed.

Lemma sub_Some data lo hi :
  0 <= lo <= hi -> hi <= Slice.len data ->
  Slice.sub data lo hi
  = Some (take (Z.to_nat (hi - lo)) (drop (Z.to_nat lo) data)).
Proof. intros H1 H2. unfold Slice.sub. rewrite decide_True; auto. Qed.

End SliceFacts.

(** Evaluating loads and stores at literal indices of a list whose first
    cells are explicit. *)
Ltac to_nat_literals :=
  repeat match goal with
    | |- context [Z.to_nat ?k] =>
        is_closed_term k; 
        let n := eval vm_compute in (Z.to_nat k) in
        change (Z.to_nat k) with n
    end.
Ltac len_fact l :=
  lazymatch goal with
  | _ : 0 <= Slice.len l |- _ => fail
  | _ => pose proof (len_nonneg l)
  end.
Ltac len_facts :=
  rewrite ?len_app, ?len_cons in *;
  repeat match goal with
    | |- context [Slice.len ?l] => len_fact l
    | _ : context [Slice.len ?l] |- _ => len_fact l
    end.
Ltac slice_step :=
  first [ rewrite load_Some by lia
        | rewrite store_Some by (len_facts; lia) ];
  to_nat_literals;
  cbn [lookup list_lookup insert list_insert mbind option_bind].
Ltac slice_eval := repeat slice_step.

(** ** Little-endian encoding *)

Section LittleEndianFacts.
Import LittleEndian.

Lemma PutUint16_cons x0 x1 rest v :
  PutUint16 (x0 :: x1 :: rest) v
  = Some (to_byte v :: to_byte (Z.shiftr v 8) :: rest).
Proof. unfold PutUint16. slice_eval. reflexivity. Qed.

Lemma PutUint32_cons x0 x1 x2 x3 rest v :
  PutUint32 (x0 :: x1 :: x2 :: x3 :: rest) v
  = Some (to_byte v :: to_byte (Z.shiftr v 8) :: to_byte (Z.shiftr v 16)
            :: to_byte (Z.shiftr v 24) :: rest).
Proof. unfold PutUint32. slice_eval. reflexivity. Qed.

Lemma PutUint64_cons x0 x1 x2 x3 x4 x5 x6 x7 rest v :
  PutUint64 (x0 :: x1 :: x2 :: x3 :: x4 :: x5 :: x6 :: x7 :: rest) v
  = Some (to_byte v :: to_byte (Z.shiftr v 8) :: to_byte (Z.shiftr v 16)
            :: to_byte (Z.shiftr v 24) :: to_byte (Z.shiftr v 32)
            :: to_byte (Z.shiftr v 40) :: to_byte (Z.shiftr v 48)
            :: to_byte (Z.shiftr v 56) :: rest).
Proof. unfold PutUint64. slice_eval. reflexivity. Qed.

Lemma Uint16_cons b0 b1 rest :
  Uint16 (b0 :: b1 :: rest) = Some (Z.lor b0 (shl16 b1 8)).
Proof. unfold Uint16. slice_eval. reflexivity. Qed.

Lemma Uint32_cons b0 b1 b2 b3 rest :
  Uint32 (b0 :: b1 :: b2 :: b3 :: rest)
  = Some (Z.lor (Z.lor (Z.lor b0 (shl32 b1 8)) (shl32 b2 16)) (shl32 b3 24)).
Proof. unfold Uint32. slice_eval. reflexivity. Qed.

Lemma Uint64_cons b0 b1 b2 b3 b4 b5 b6 b7 rest :
  Uint64 (b0 :: b1 :: b2 :: b3 :: b4 :: b5 :: b6 :: b7 :: rest)
  = Some (Z.lor (Z.lor (Z.lor (Z.lor (Z.lor (Z.lor (Z.lor
            b0 (shl64 b1 8)) (shl64 b2 16)) (shl64 b3 24))
            (shl64 b4 32)) (shl64 b5 40)) (shl64 b6 48)) (shl64 b7 56)).
Proof. unfold Uint64. slice_eval. reflexivity. Qed.

Lemma shl_byte w b k :
  is_byte b -> 0 <= k -> k + 8 <= w ->
  Z.shiftl b k mod 2 ^ w = b * 2 ^ k.
Proof.
  unfold is_byte. intros Hb Hk Hw.
  rewrite Z.shiftl_mul_pow2 by lia.
  apply Z.mod_small. split; [nia|].
  replace w with (k + (w - k)) by lia. rewrite Z.pow_add_r by lia.
  assert (2 ^ 8 <= 2 ^ (w - k)) by (apply Z.pow_le_mono_r; lia).
  nia.
Qed.

Lemma lor_byte_at w acc b k :
  0 <= k -> k + 8 <= w -> 0 <= acc < 2 ^ k -> is_byte b ->
  Z.lor acc (Z.shiftl b k mod 2 ^ w) = acc + b * 2 ^ k.
Proof.
  intros Hk Hw Hacc Hb.
  rewrite (shl_byte w) by trivial.
  rewrite <- (Z.shiftl_mul_pow2 _ k) by lia.
  rewrite lor_shiftl_add by lia.
  rewrite Z.shiftl_mul_pow2 by lia. trivial.
Qed.

(** Decoding the bytes [PutUintNN] produced gives the value back. *)
Lemma Uint16_of_bytes v :
  is_uint16 v ->
  Z.lor (to_byte v) (shl16 (to_byte (Z.shiftr v 8)) 8) = v.
Proof.
  intros Hv. unfold shl16, to_uint16.
  pose proof (to_byte_range v) as H0.
  pose proof (to_byte_range (Z.shiftr v 8)) as H1.
  rewrite (lor_byte_at 16) by (trivial; unfold is_byte in *; lia).
  apply le_value16; trivial.
Qed.

Lemma Uint32_of_bytes v :
  is_uint32 v ->
  Z.lor (Z.lor (Z.lor (to_byte v) (shl32 (to_byte (Z.shiftr v 8)) 8))
           (shl32 (to_byte (Z.shiftr v 16)) 16))
    (shl32 (to_byte (Z.shiftr v 24)) 24) = v.
Proof.
  intros Hv. unfold shl32, to_uint32.
  pose proof (to_byte_range v) as H0.
  pose proof (to_byte_range (Z.shiftr v 8)) as H1.
  pose proof (to_byte_range (Z.shiftr v 16)) as H2.
  pose proof (to_byte_range (Z.shiftr v 24)) as H3.
  rewrite (lor_byte_at 32 _ _ 8) by (trivial; unfold is_byte in *; lia).
  rewrite (lor_byte_at 32 _ _ 16) by (trivial; unfold is_byte in *; lia).
  rewrite (lor_byte_at 32 _ _ 24) by (trivial; unfold is_byte in *; lia).
  apply le_value32; trivial.
Qed.

Lemma Uint64_of_bytes v :
  is_uint64 v ->
  Z.lor (Z.lor (Z.lor (Z.lor (Z.lor (Z.lor (Z.lor
    (to_byte v) (shl64 (to_byte (Z.shiftr v 8)) 8))
    (shl64 (to_byte (Z.shiftr v 16)) 16))
    (shl64 (to_byte (Z.shiftr v 24)) 24))
    (shl64 (to_byte (Z.shiftr v 32)) 32))
    (shl64 (to_byte (Z.shiftr v 40)) 40))
    (shl64 (to_byte (Z.shiftr v 48)) 48))
    (shl64 (to_byte (Z.shiftr v 56)) 56) = v.
Proof.
  intros Hv. unfold shl64, to_uint64.
  pose proof (to_byte_range v) as H0.
  pose proof (to_byte_range (Z.shiftr v 8)) as H1.
  pose proof (to_byte_range (Z.shiftr v 16)) as H2.
  pose proof (to_byte_range (Z.shiftr v 24)) as H3.
  pose proof (to_byte_range (Z.shiftr v 32)) as H4.
  pose proof (to_byte_range (Z.shiftr v 40)) as H5.
  pose proof (to_byte_range (Z.shiftr v 48)) as H6.
  pose proof (to_byte_range (Z.shiftr v 56)) as H7.
  rewrite (lor_byte_at 64 _ _ 8) by (trivial; unfold is_byte in *; lia).
  rewrite (lor_byte_at 64 _ _ 16) by (trivial; unfold is_byte in *; lia).
  rewrite (lor_byte_at 64 _ _ 24) by (trivial; unfold is_byte in *; lia).
  rewrite (lor_byte_at 64 _ _ 32) by (trivial; unfold is_byte in *; lia).
  rewrite (lor_byte_at 64 _ _ 40) by (trivial; unfold is_byte in *; lia).
  rewrite (lor_byte_at 64 _ _ 48) by (trivial; unfold is_byte in *; lia).
  rewrite (lor_byte_at 64 _ _ 56) by (trivial; unfold is_byte in *; lia).
  apply le_value64; trivial.
Qed.

End LittleEndianFacts.

(** ** Scalar writers and readers at a split buffer *)

Section CodecAt.

Ltac int_ok :=
  unfold is_int, min_int, max_int in *; len_facts; lia.

Ltac at_write :=
  rewrite from_app; cbn [mbind option_bind];
  rewrite ?PutUint16_cons, ?PutUint32_cons, ?PutUint64_cons;
  cbn [mbind option_bind];
  rewrite rejoin_app, int_add_id by int_ok; reflexivity.

Ltac at_read :=
  rewrite int_add_id by int_ok;
  rewrite decide_False by int_ok;
  rewrite from_app; cbn [mbind option_bind];
  rewrite ?Uint16_cons, ?Uint32_cons, ?Uint64_cons;
  cbn [mbind option_bind]; reflexivity.

Variables pre post : list Z.

Lemma store_at x v :
  Slice.store (pre ++ x :: post) (Slice.len pre) v = Some (pre ++ v :: post).
Proof.
  rewrite store_Some by (len_facts; lia).
  unfold Slice.len. rewrite Nat2Z.id.
  rewrite insert_app_r_alt, Nat.sub_diag by lia. reflexivity.
Qed.

Lemma load_at x : Slice.load (pre ++ x :: post) (Slice.len pre) = Some x.
Proof.
  rewrite load_Some by apply len_nonneg.
  unfold Slice.len. rewrite Nat2Z.id.
  rewrite lookup_app_r, Nat.sub_diag by lia. reflexivity.
Qed.

Lemma WriteBool_at x v :
  Slice.len (pre ++ x :: post) <= max_int ->
  WriteBool (pre ++ x :: post) (Slice.len pre) v
  = Some (pre ++ (if v then 1 else 0) :: post, Slice.len pre + 1).
Proof.
  intros H. unfold WriteBool.
  destruct v; rewrite store_at; cbn [mbind option_bind];
    rewrite int_add_id by int_ok; reflexivity.
Qed.

Lemma ReadBool_at b old :
  Slice.len (pre ++ b :: post) <= max_int ->
  ReadBool (pre ++ b :: post) (Slice.len pre) old
  = Some (ReadResult true (Slice.len pre + 1)
            (if decide (b > 0) then true else false)).
Proof.
  intros H. unfold ReadBool.
  rewrite int_add_id by int_ok. rewrite decide_False by int_ok.
  rewrite load_at. reflexivity.
Qed.

Lemma WriteUint8_at x v :
  Slice.len (pre ++ x :: post) <= max_int ->
  WriteUint8 (pre ++ x :: post) (Slice.len pre) v
  = Some (pre ++ to_byte v :: post, Slice.len pre + 1).
Proof.
  intros H. unfold WriteUint8. rewrite store_at. cbn [mbind option_bind].
  rewrite int_add_id by int_ok. reflexivity.
Qed.

Lemma ReadUint8_at b old :
  Slice.len (pre ++ b :: post) <= max_int ->
  ReadUint8 (pre ++ b :: post) (Slice.len pre) old
  = Some (ReadResult true (Slice.len pre + 1) b).
Proof.
  intros H. unfold ReadUint8.
  rewrite int_add_id by int_ok. rewrite decide_False by int_ok.
  rewrite load_at. reflexivity.
Qed.

Lemma WriteUint16_at x0 x1 v :
  Slice.len (pre ++ x0 :: x1 :: post) <= max_int ->
  WriteUint16 (pre ++ x0 :: x1 :: post) (Slice.len pre) v
  = Some (pre ++ to_byte v :: to_byte (Z.shiftr v 8) :: post,
          Slice.len pre + 2).
Proof. intros H. unfold WriteUint16. at_write. Qed.

Lemma ReadUint16_at b0 b1 old :
  Slice.len (pre ++ b0 :: b1 :: post) <= max_int ->
  ReadUint16 (pre ++ b0 :: b1 :: post) (Slice.len pre) old
  = Some (ReadResult true (Slice.len pre + 2)
            (Z.lor b0 (LittleEndian.shl16 b1 8))).
Proof. intros H. unfold ReadUint16. at_read. Qed.

Lemma WriteUint32_at x0 x1 x2 x3 v :
  Slice.len (pre ++ x0 :: x1 :: x2 :: x3 :: post) <= max_int ->
  WriteUint32 (pre ++ x0 :: x1 :: x2 :: x3 :: post) (Slice.len pre) v
  = Some (pre ++ to_byte v :: to_byte (Z.shiftr v 8)
            :: to_byte (Z.shiftr v 16) :: to_byte (Z.shiftr v 24) :: post,
          Slice.len pre + 4).
Proof. intros H. unfold WriteUint32. at_write. Qed.

Lemma ReadUint32_at b0 b1 b2 b3 old :
  Slice.len (pre ++ b0 :: b1 :: b2 :: b3 :: post) <= max_int ->
  ReadUint32 (pre ++ b0 :: b1 :: b2 :: b3 :: post) (Slice.len pre) old
  = Some (ReadResult true (Slice.len pre + 4)
            (Z.lor (Z.lor (Z.lor b0 (LittleEndian.shl32 b1 8))
                      (LittleEndian.shl32 b2 16))
               (LittleEndian.shl32 b3 24))).
Proof. intros H. unfold ReadUint32. at_read. Qed.

Lemma WriteUint64_at x0 x1 x2 x3 x4 x5 x6 x7 v :
  Slice.len (pre ++ x0 :: x1 :: x2 :: x3 :: x4 :: x5 :: x6 :: x7 :: post)
    <= max_int ->
  WriteUint64 (pre ++ x0 :: x1 :: x2 :: x3 :: x4 :: x5 :: x6 :: x7 :: post)
    (Slice.len pre) v
  = Some (pre ++ to_byte v :: to_byte (Z.shiftr v 8)
            :: to_byte (Z.shiftr v 16) :: to_byte (Z.shiftr v 24)
            :: to_byte (Z.shiftr v 32) :: to_byte (Z.shiftr v 40)
            :: to_byte (Z.shiftr v 48) :: to_byte (Z.shiftr v 56) :: post,
          Slice.len pre + 8).
Proof. intros H. unfold WriteUint64. at_write. Qed.

Lemma ReadUint64_at b0 b1 b2 b3 b4 b5 b6 b7 old :
  Slice.len (pre ++ b0 :: b1 :: b2 :: b3 :: b4 :: b5 :: b6 :: b7 :: post)
    <= max_int ->
  ReadUint64 (pre ++ b0 :: b1 :: b2 :: b3 :: b4 :: b5 :: b6 :: b7 :: post)
    (Slice.len pre) old
  = Some (ReadResult true (Slice.len pre + 8)
            (Z.lor (Z.lor (Z.lor (Z.lor (Z.lor (Z.lor (Z.lor
               b0 (LittleEndian.shl64 b1 8)) (LittleEndian.shl64 b2 16))
               (LittleEndian.shl64 b3 24)) (LittleEndian.shl64 b4 32))
               (LittleEndian.shl64 b5 40)) (LittleEndian.shl64 b6 48))
               (LittleEndian.shl64 b7 56))).
Proof. intros H. unfold ReadUint64. at_read. Qed.

End CodecAt.

(** ** Round trips of the scalar codec *)

Section RoundTrip.
Import Props.

Lemma le_bytes_2 v :
  [to_byte v; to_byte (Z.shiftr v 8)] = Wire.le_bytes 2 v.
Proof.
  unfold to_byte. cbn [Wire.le_bytes]. change 256 with (2 ^ 8).
  rewrite <- !Z.shiftr_div_pow2 by lia. reflexivity.
Qed.

Lemma le_bytes_4 v :
  [to_byte v; to_byte (Z.shiftr v 8); to_byte (Z.shiftr v 16);
   to_byte (Z.shiftr v 24)] = Wire.le_bytes 4 v.
Proof.
  unfold to_byte. cbn [Wire.le_bytes]. change 256 with (2 ^ 8).
  rewrite <- !Z.shiftr_div_pow2 by lia.
  rewrite !Z.shiftr_shiftr by lia. reflexivity.
Qed.

Lemma le_bytes_8 v :
  [to_byte v; to_byte (Z.shiftr v 8); to_byte (Z.shiftr v 16);
   to_byte (Z.shiftr v 24); to_byte (Z.shiftr v 32);
   to_byte (Z.shiftr v 40); to_byte (Z.shiftr v 48);
   to_byte (Z.shiftr v 56)] = Wire.le_bytes 8 v.
Proof.
  unfold to_byte. cbn [Wire.le_bytes]. change 256 with (2 ^ 8).
  rewrite <- !Z.shiftr_div_pow2 by lia.
  rewrite !Z.shiftr_shiftr by lia. reflexivity.
Qed.

Lemma sub_app pre mid post n :
  n = Slice.len mid ->
  Slice.sub (pre ++ mid ++ post) (Slice.len pre) (Slice.len pre + n)
  = Some mid.
Proof.
  intros ->. rewrite sub_Some by (len_facts; lia).
  replace (Slice.len pre + Slice.len mid - Slice.len pre)
    with (Slice.len mid) by lia.
  unfold Slice.len. rewrite !Nat2Z.id.
  rewrite drop_app_length, take_app_length. reflexivity.
Qed.

Variables (data : list Z) (p : Z).
Hypothesis Hp : 0 <= p.
Hypothesis Hlen : Slice.len data <= max_int.

Ltac split_buffer n Hcap :=
  let pre := fresh "pre" in
  let mid := fresh "mid" in
  let post := fresh "post" in
  let Hd := fresh "Hd" in
  let Hpre := fresh "Hpre" in
  let Hmid := fresh "Hmid" in
  destruct (split_at data p n Hp Hcap)
    as (pre & mid & post & Hd & Hpre & Hmid);
  repeat (destruct mid as [|? mid]; [discriminate Hmid|]);
  destruct mid; [|discriminate Hmid];
  clear Hmid; subst data p; cbn [app] in *.

Ltac same_len := rewrite !len_app, !len_cons; reflexivity.

Lemma round_trip_bool v old :
  p + 1 <= Slice.len data ->
  round_trip WriteBool ReadBool 1 (fun v : bool => [if v then 1 else 0])
    data p v old.
Proof.
  intros Hcap. split_buffer 1%nat Hcap.
  eexists. rewrite WriteBool_at by trivial.
  split; [reflexivity|]. split; [same_len|].
  split; [apply (sub_app _ [_]); reflexivity|].
  rewrite ReadBool_at by (revert Hlen; rewrite !len_app, !len_cons; trivial).
  destruct v; reflexivity.
Qed.

Lemma round_trip_uint8 v old :
  is_byte v -> p + 1 <= Slice.len data ->
  round_trip WriteUint8 ReadUint8 1 (Wire.le_bytes 1) data p v old.
Proof.
  intros Hv Hcap. split_buffer 1%nat Hcap.
  eexists. rewrite WriteUint8_at by trivial.
  split; [reflexivity|]. split; [same_len|].
  split; [apply (sub_app _ [_]); reflexivity|].
  rewrite ReadUint8_at by (revert Hlen; rewrite !len_app, !len_cons; trivial).
  rewrite to_byte_id by trivial. reflexivity.
Qed.

Lemma round_trip_uint16 v old :
  is_uint16 v -> p + 2 <= Slice.len data ->
  round_trip WriteUint16 ReadUint16 2 (Wire.le_bytes 2) data p v old.
Proof.
  intros Hv Hcap. split_buffer 2%nat Hcap.
  eexists. rewrite WriteUint16_at by trivial.
  split; [reflexivity|]. split; [same_len|].
  split; [rewrite <- le_bytes_2; apply (sub_app _ [_; _]); reflexivity|].
  rewrite ReadUint16_at by (revert Hlen; rewrite !len_app, !len_cons; trivial).
  rewrite Uint16_of_bytes by trivial. reflexivity.
Qed.

Lemma round_trip_uint32 v old :
  is_uint32 v -> p + 4 <= Slice.len data ->
  round_trip WriteUint32 ReadUint32 4 (Wire.le_bytes 4) data p v old.
Proof.
  intros Hv Hcap. split_buffer 4%nat Hcap.
  eexists. rewrite WriteUint32_at by trivial.
  split; [reflexivity|]. split; [same_len|].
  split; [rewrite <- le_bytes_4; apply (sub_app _ [_; _; _; _]); reflexivity|].
  rewrite ReadUint32_at by (revert Hlen; rewrite !len_app, !len_cons; trivial).
  rewrite Uint32_of_bytes by trivial. reflexivity.
Qed.

Lemma round_trip_uint64 v old :
  is_uint64 v -> p + 8 <= Slice.len data ->
  round_trip WriteUint64 ReadUint64 8 (Wire.le_bytes 8) data p v old.
Proof.
  intros Hv Hcap. split_buffer 8%nat Hcap.
  eexists. rewrite WriteUint64_at by trivial.
  split; [reflexivity|]. split; [same_len|].
  split; [rewrite <- le_bytes_8;
          apply (sub_app _ [_; _; _; _; _; _; _; _]); reflexivity|].
  rewrite ReadUint64_at by (revert Hlen; rewrite !len_app, !len_cons; trivial).
  rewrite Uint64_of_bytes by trivial. reflexivity.
Qed.

Lemma round_trip_float32 v old :
  wf32 v -> p + 4 <= Slice.len data ->
  round_trip WriteFloat32 ReadFloat32 4
    (fun f => Wire.le_bytes 4 (bits32 f)) data p v old.
Proof.
  intros Hv Hcap.
  assert (Hb : Float32bits v = bits32 v)
    by (apply Z.mod_small; exact Hv).
  destruct (round_trip_uint32 (bits32 v) 0 Hv Hcap)
    as (data' & Hw & Hl & Hs & Hr).
  exists data'. unfold WriteFloat32, ReadFloat32.
  rewrite Hb, Hw, Hr. cbn [mbind option_bind rok rindex rvalue negb].
  repeat split; trivial.
  unfold Float32frombits, to_uint32. destruct v as [b]; cbn [bits32] in *.
  rewrite (Z.mod_small b) by exact Hv. reflexivity.
Qed.

Lemma round_trip_float64 v old :
  wf64 v -> p + 8 <= Slice.len data ->
  round_trip WriteFloat64 ReadFloat64 8
    (fun f => Wire.le_bytes 8 (bits64 f)) data p v old.
Proof.
  intros Hv Hcap.
  assert (Hb : Float64bits v = bits64 v)
    by (apply Z.mod_small; exact Hv).
  destruct (round_trip_uint64 (bits64 v) 0 Hv Hcap)
    as (data' & Hw & Hl & Hs & Hr).
  exists data'. unfold WriteFloat64, ReadFloat64.
  rewrite Hb, Hw, Hr. cbn [mbind option_bind rok rindex rvalue negb].
  repeat split; trivial.
  unfold Float64frombits, to_uint64. destruct v as [b]; cbn [bits64] in *.
  rewrite (Z.mod_small b) by exact Hv. reflexivity.
Qed.

End RoundTrip.

(** C8.  For every scalar type of the codec (bool, uint8, uint16, uint32,
    uint64, float32, float64), every value [v] of the type and every cursor
    position [p] of a buffer with room for the value: writing [v] at [p]
    succeeds and moves the cursor to [p + sizeof(T)], and reading the same
    type at [p] from the buffer written succeeds, gives back [v] exactly and
    leaves the cursor at [p + sizeof(T)].  The bytes on the wire are the
    little-endian bytes of the value; for floats, of the raw IEEE-754 bit
    pattern, so that every bit pattern (signed zeros, infinities, every NaN
    payload) comes back unchanged. *)
Theorem scalar_round_trip (data : list Z) (p : Z) :
  0 <= p ->
  Slice.len data <= max_int ->
  (forall v old : bool, p + 1 <= Slice.len data ->
     Props.round_trip WriteBool ReadBool 1
       (fun v : bool => [if v then 1 else 0]) data p v old)
  /\ (forall v old, is_byte v -> p + 1 <= Slice.len data ->
        Props.round_trip WriteUint8 ReadUint8 1 (Wire.le_bytes 1) data p v old)
  /\ (forall v old, is_uint16 v -> p + 2 <= Slice.len data ->
        Props.round_trip WriteUint16 ReadUint16 2 (Wire.le_bytes 2)
          data p v old)
  /\ (forall v old, is_uint32 v -> p + 4 <= Slice.len data ->
        Props.round_trip WriteUint32 ReadUint32 4 (Wire.le_bytes 4)
          data p v old)
  /\ (forall v old, is_uint64 v -> p + 8 <= Slice.len data ->
        Props.round_trip WriteUint64 ReadUint64 8 (Wire.le_bytes 8)
          data p v old)
  /\ (forall v old, wf32 v -> p + 4 <= Slice.len data ->
        Props.round_trip WriteFloat32 ReadFloat32 4
          (fun f => Wire.le_bytes 4 (bits32 f)) data p v old)
  /\ (forall v old, wf64 v -> p + 8 <= Slice.len data ->
        Props.round_trip WriteFloat64 ReadFloat64 8
          (fun f => Wire.le_bytes 8 (bits64 f)) data p v old).
Proof.
  intros Hp Hlen. repeat split; intros.
  - apply round_trip_bool; trivial.
  - apply round_trip_uint8; trivial.
  - apply round_trip_uint16; trivial.
  - apply round_trip_uint32; trivial.
  - apply round_trip_uint64; trivial.
  - apply round_trip_float32; trivial.
  - apply round_trip_float64; trivial.
Qed.

Lemma scalar_round_trip_witness :
  let data := [9; 9; 9; 9; 9; 9; 9; 9; 9; 9; 9; 9] in
  Props.round_trip WriteBool ReadBool 1
    (fun v : bool => [if v then 1 else 0]) data 2 true false
  /\ Props.round_trip WriteUint8 ReadUint8 1 (Wire.le_bytes 1) data 2 255 0
  /\ Props.round_trip WriteUint16 ReadUint16 2 (Wire.le_bytes 2)
       data 2 40000 0
  /\ Props.round_trip WriteUint32 ReadUint32 4 (Wire.le_bytes 4)
       data 2 0xDEADBEEF 0
  /\ Props.round_trip WriteUint64 ReadUint64 8 (Wire.le_bytes 8)
       data 2 0xFFFFFFFFFFFFFFFF 0
  /\ Props.round_trip WriteFloat32 ReadFloat32 4
       (fun f => Wire.le_bytes 4 (bits32 f)) data 2 signalling_nan32 neg_zero32
  /\ Props.round_trip WriteFloat64 ReadFloat64 8
       (fun f => Wire.le_bytes 8 (bits64 f)) data 2 neg_zero64 pos_inf64
  /\ Props.round_trip WriteFloat64 ReadFloat64 8
       (fun f => Wire.le_bytes 8 (bits64 f)) data 2 signalling_nan64
       quiet_nan64.
Proof.
  intros data.
  destruct (scalar_round_trip data 2)
    as (Hb & H8 & H16 & H32 & H64 & Hf32 & Hf64).
  - lia.
  - vm_compute. discriminate.
  - repeat split;
      [ apply Hb | apply H8 | apply H16 | apply H32 | apply H64
      | apply Hf32 | apply Hf64 | apply Hf64 ];
      vm_compute; repeat split; discriminate || reflexivity.
Defined.

(** ** Failing reads *)

Section ReadFailure.
Import Props.

Ltac fixed_width :=
  intros data index value; split;
  [ intros H; rewrite decide_True by trivial; reflexivity
  | intros r; case_decide;
    [ intros [= <-] _; auto
    | intros Hr Hok; exfalso;
      repeat match type of Hr with
        | (?m ≫= _) = Some _ =>
            destruct m; cbn [mbind option_bind] in Hr;
            [|discriminate Hr]
        end;
      injection Hr as <-; discriminate Hok ] ].

Lemma ReadBool_fails_cleanly : fails_cleanly ReadBool 1.
Proof. unfold fails_cleanly, ReadBool. fixed_width. Qed.

Lemma ReadUint8_fails_cleanly : fails_cleanly ReadUint8 1.
Proof. unfold fails_cleanly, ReadUint8. fixed_width. Qed.

Lemma ReadUint16_fails_cleanly : fails_cleanly ReadUint16 2.
Proof. unfold fails_cleanly, ReadUint16. fixed_width. Qed.

Lemma ReadUint32_fails_cleanly : fails_cleanly ReadUint32 4.
Proof. unfold fails_cleanly, ReadUint32. fixed_width. Qed.

Lemma ReadUint64_fails_cleanly : fails_cleanly ReadUint64 8.
Proof. unfold fails_cleanly, ReadUint64. fixed_width. Qed.

Lemma ReadFloat32_fails_cleanly : fails_cleanly ReadFloat32 4.
Proof.
  intros data index value. unfold ReadFloat32.
  destruct (ReadUint32_fails_cleanly data index 0) as [Hf Hr]. split.
  - intros H. rewrite Hf by trivial. reflexivity.
  - intros r. destruct (ReadUint32 data index 0) as [u|]; [|discriminate].
    cbn [mbind option_bind]. specialize (Hr u eq_refl).
    destruct (rok u); cbn [negb].
    + intros [= <-]. discriminate.
    + intros [= <-] _. destruct (Hr eq_refl) as (? & ? & ?). auto.
Qed.

Lemma ReadFloat64_fails_cleanly : fails_cleanly ReadFloat64 8.
Proof.
  intros data index value. unfold ReadFloat64.
  destruct (ReadUint64_fails_cleanly data index 0) as [Hf Hr]. split.
  - intros H. rewrite Hf by trivial. reflexivity.
  - intros r. destruct (ReadUint64 data index 0) as [u|]; [|discriminate].
    cbn [mbind option_bind]. specialize (Hr u eq_refl).
    destruct (rok u); cbn [negb].
    + intros [= <-]. discriminate.
    + intros [= <-] _. destruct (Hr eq_refl) as (? & ? & ?). auto.
Qed.

(** [ReadBytes] tests the bound for the whole block first. *)
Lemma ReadBytes_failure data index value bytes r :
  ReadBytes data index value bytes = Some r -> rok r = false ->
  rindex r = index /\ rvalue r = value.
Proof.
  unfold ReadBytes. case_decide.
  - intros [= <-] _. auto.
  - destruct (read_loop _ _ _ _ _) as [[v i]|]; cbn [mbind option_bind].
    + intros [= <-]. discriminate.
    + discriminate.
Qed.

(** [ReadString] never touches the output when it fails; the cursor is
    as before when the length prefix could not be read, and past the
    prefix when the declared length is refused. *)
Lemma ReadString_failure data index value maxStringLength r :
  ReadString data index value maxStringLength = Some r -> rok r = false ->
  rvalue r = value
  /\ (int_add index 4 > Slice.len data /\ rindex r = index
      \/ ~ int_add index 4 > Slice.len data /\ rindex r = int_add index 4).
Proof.
  unfold ReadString.
  destruct (ReadUint32_fails_cleanly data index 0) as [_ Hr].
  destruct (ReadUint32 data index 0) as [u|] eqn:Hu; [|discriminate].
  cbn [mbind option_bind]. specialize (Hr u eq_refl).
  destruct (rok u) eqn:Hok; cbn [negb].
  - assert (Hi : ~ int_add index 4 > Slice.len data
                 /\ rindex u = int_add index 4).
    { revert Hu. unfold ReadUint32. case_decide.
      - intros [= <-]. discriminate.
      - destruct (Slice.from data index); [|discriminate].
        cbn [mbind option_bind].
        destruct (LittleEndian.Uint32 l); [|discriminate].
        intros [= <-]. auto. }
    repeat case_decide.
    + intros [= <-] _. cbn [rvalue rindex]. auto.
    + intros [= <-] _. cbn [rvalue rindex]. auto.
    + destruct (read_loop _ _ _ _ _) as [[v i]|]; cbn [mbind option_bind].
      * intros [= <-]. discriminate.
      * discriminate.
  - intros [= <-] _. destruct (Hr eq_refl) as (? & ? & ?).
    cbn [rvalue rindex]. auto.
Qed.

End ReadFailure.

(** C5.  [ReadString] on a buffer whose length prefix can be read but whose
    declared length is refused: with the five bytes [05 00 00 00 61] and the
    cursor at 0, the declared length 5 exceeds the maximum 4 (first case) and
    exceeds the one byte that remains (second case, maximum 16).  Both calls
    return [false] and leave the output as it was, but the cursor is left at
    4, behind the prefix, not at 0 where it was before the call. *)
Theorem ReadString_failure_moves_cursor :
  ReadString [5; 0; 0; 0; 97] 0 [1; 2] 4 = Some (ReadResult false 4 [1; 2])
  /\ ReadString [5; 0; 0; 0; 97] 0 [1; 2] 16
     = Some (ReadResult false 4 [1; 2]).
Proof. split; vm_compute; reflexivity. Qed.

(** ** When an access panics *)

Section Bounds.

Lemma load_Some_len data i c :
  Slice.load data i = Some c -> 0 <= i < Slice.len data.
Proof.
  unfold Slice.load, Slice.len. case_decide; [|discriminate].
  intros Hl%lookup_lt_Some. lia.
Qed.

Lemma load_None_len data i :
  Slice.load data i = None -> ~ 0 <= i < Slice.len data.
Proof.
  unfold Slice.load, Slice.len. case_decide; [|lia].
  intros Hl%lookup_ge_None. lia.
Qed.

Lemma store_Some_len data i v data' :
  Slice.store data i v = Some data' ->
  0 <= i < Slice.len data /\ Slice.len data' = Slice.len data.
Proof.
  intros H. pose proof (store_len _ _ _ _ H).
  unfold Slice.store in H. case_decide; [auto|discriminate].
Qed.

Lemma store_None_len data i v :
  Slice.store data i v = None -> ~ 0 <= i < Slice.len data.
Proof. unfold Slice.store. case_decide; [discriminate|auto]. Qed.

Lemma from_Some_len data lo b :
  Slice.from data lo = Some b ->
  0 <= lo <= Slice.len data /\ Slice.len b = Slice.len data - lo.
Proof.
  unfold Slice.from. case_decide; [|discriminate].
  intros [= <-]. unfold Slice.len in *. rewrite length_drop. lia.
Qed.

Lemma from_None_len data lo :
  Slice.from data lo = None -> ~ 0 <= lo <= Slice.len data.
Proof. unfold Slice.from. case_decide; [discriminate|auto]. Qed.

Lemma Uint16_Some_len b v :
  LittleEndian.Uint16 b = Some v -> 2 <= Slice.len b.
Proof.
  unfold LittleEndian.Uint16.
  destruct (Slice.load b 1) eqn:H; [|discriminate].
  apply load_Some_len in H. lia.
Qed.

Lemma Uint16_None_len b :
  LittleEndian.Uint16 b = None -> Slice.len b < 2.
Proof.
  destruct b as [|b0 [|b1 rest]].
  - intros _. unfold Slice.len. simpl length. lia.
  - intros _. unfold Slice.len. simpl length. lia.
  - rewrite Uint16_cons. discriminate.
Qed.

Lemma copy_len dst src : Slice.len (Slice.copy dst src) = Slice.len dst.
Proof.
  unfold Slice.copy, Slice.len.
  rewrite length_app, length_take, length_drop. lia.
Qed.

Lemma rejoin_len data lo b :
  0 <= lo <= Slice.len data ->
  Slice.len (Slice.rejoin data lo b) = lo + Slice.len b.
Proof.
  unfold Slice.rejoin, Slice.len. intros H.
  rewrite length_app, length_take. lia.
Qed.

Lemma To4_len ip v : Net.To4 ip = Some v -> Slice.len v = 4.
Proof.
  unfold Net.To4, Net.IPv4len, Net.IPv6len, Slice.len.
  repeat case_decide; intros [= <-].
  - lia.
  - rewrite length_take, length_drop. lia.
Qed.

End Bounds.

(** Turns what is known about loads, stores and slices into facts on
    lengths. *)
Ltac bounds :=
  repeat match goal with
    | H : Slice.load _ _ = Some _ |- _ => apply load_Some_len in H
    | H : Slice.load _ _ = None |- _ => apply load_None_len in H
    | H : Slice.store _ _ _ = Some _ |- _ => apply store_Some_len in H
    | H : Slice.store _ _ _ = None |- _ => apply store_None_len in H
    | H : Slice.from _ _ = Some _ |- _ => apply from_Some_len in H
    | H : Slice.from _ _ = None |- _ => apply from_None_len in H
    | H : LittleEndian.Uint16 _ = Some _ |- _ => apply Uint16_Some_len in H
    | H : LittleEndian.Uint16 _ = None |- _ => apply Uint16_None_len in H
    | H : Net.To4 _ = Some _ |- _ => apply To4_len in H
    end.

(** Runs a chain of binds, naming the outcome of each step. *)
Ltac run_bind :=
  repeat match goal with
    | |- context [?m ≫= _] =>
        lazymatch m with
        | context [_ ≫= _] => fail
        | _ => idtac
        end;
        let H := fresh "Hstep" in
        destruct m eqn:H; cbn [mbind option_bind]
    end.

Ltac last_step :=
  try match goal with
    | |- ?m = None <-> _ =>
        let H := fresh "Hlast" in destruct m eqn:H
    end.

Section AddressBounds.
Import Net Address.

Lemma ReadAddress_panics buffer :
  ReadAddress buffer = None
  <-> Slice.len buffer = 0
      \/ (Slice.load buffer 0 = Some IPAddressIPv4 /\ Slice.len buffer < 7)
      \/ (Slice.load buffer 0 = Some IPAddressIPv6
          /\ Slice.len buffer < AddressSize).
Proof.
  unfold ReadAddress, IPAddressIPv4, IPAddressIPv6, AddressSize.
  pose proof (len_nonneg buffer).
  destruct (Slice.load buffer 0) as [t|] eqn:Ht; cbn [mbind option_bind].
  - pose proof (load_Some_len _ _ _ Ht).
    repeat case_decide; subst; run_bind; bounds;
      (split; [try discriminate; intros _; right|
               intros [?|[[[=] ?]|[[=] ?]]]; subst; try reflexivity;
               try lia]);
      first [ left; split; [reflexivity|lia]
            | right; split; [reflexivity|lia]
            | idtac ].
  - pose proof (load_None_len _ _ Ht). split; [intros _; left; lia|trivial].
Qed.

Lemma WriteAddress_panics buffer address :
  WriteAddress buffer address = None
  <-> match address with
      | None => Slice.len buffer = 0
      | Some a =>
          match To4 (IP a) with
          | Some _ => Slice.len buffer < 7
          | None => Slice.len buffer < AddressSize
          end
      end.
Proof.
  unfold WriteAddress, IPAddressNone, IPAddressIPv4, IPAddressIPv6,
    AddressSize.
  pose proof (len_nonneg buffer).
  destruct address as [a|].
  - destruct (To4 (IP a)) as [v|] eqn:Hv.
    + run_bind; last_step; bounds;
        split; try discriminate; try reflexivity; lia.
    + run_bind; cbv zeta in *; last_step; bounds;
        repeat match goal with
          | H : context [Slice.len (Slice.rejoin _ _ _)] |- _ =>
              rewrite !rejoin_len, !copy_len in H by lia
          end;
        split; try discriminate; try reflexivity; lia.
  - destruct (Slice.store buffer 0 0) eqn:Hs; bounds;
      split; try discriminate; try reflexivity; lia.
Qed.

End AddressBounds.

(** ** The address codec *)

Section AddressCodec.
Import Net Address.

Lemma port_low_byte port : to_byte (Z.land port 0xFF) = to_byte port.
Proof.
  unfold to_byte. change 0xFF with (Z.ones 8).
  rewrite Z.land_ones by lia. apply Z.mod_mod. lia.
Qed.

Lemma port_decoded port :
  0 <= port <= 65535 ->
  to_int (Z.lor (to_byte (Z.land port 0xFF))
            (LittleEndian.shl16 (to_byte (Z.shiftr port 8)) 8)) = port.
Proof.
  intros H. rewrite port_low_byte, Uint16_of_bytes by (unfold is_uint16; lia).
  apply to_int_id. unfold is_int, min_int, max_int. lia.
Qed.

Lemma from_nat (l : list Z) (n : nat) :
  (n <= length l)%nat -> Slice.from l (Z.of_nat n) = Some (drop n l).
Proof.
  intros H. unfold Slice.from, Slice.len.
  rewrite decide_True by lia. rewrite Nat2Z.id. reflexivity.
Qed.

(** The absent address: one tag byte, and it reads back as absent. *)
Lemma None_round_trip x0 rest :
  WriteAddress (x0 :: rest) None = Some (IPAddressNone :: rest)
  /\ ReadAddress (IPAddressNone :: rest) = Some None.
Proof.
  split.
  - unfold WriteAddress. slice_eval. reflexivity.
  - unfold ReadAddress. slice_eval. reflexivity.
Qed.

(** An unknown tag is "no address", whatever follows. *)
Lemma ReadAddress_other_tag t rest :
  t <> IPAddressIPv4 -> t <> IPAddressIPv6 ->
  ReadAddress (t :: rest) = Some None.
Proof.
  intros H1 H2. unfold ReadAddress. slice_eval.
  rewrite !decide_False by trivial. reflexivity.
Qed.

(** IPv4: seven bytes are written, and they read back as the 16-byte
    form of the same address, with the same port. *)
Lemma IPv4_written a b c d port x0 x1 x2 x3 x4 x5 x6 rest :
  WriteAddress (x0 :: x1 :: x2 :: x3 :: x4 :: x5 :: x6 :: rest)
    (Some (MkUDPAddr [a; b; c; d] port))
  = Some (IPAddressIPv4 :: a :: b :: c :: d
            :: to_byte (Z.land port 0xFF) :: to_byte (Z.shiftr port 8)
            :: rest).
Proof.
  unfold WriteAddress. cbn [IP Port].
  change (To4 [a; b; c; d]) with (Some [a; b; c; d]).
  cbv iota beta zeta. slice_eval. reflexivity.
Qed.

Lemma IPv4_read a b c d p0 p1 rest :
  ReadAddress (IPAddressIPv4 :: a :: b :: c :: d :: p0 :: p1 :: rest)
  = Some (Some (MkUDPAddr (IPv4 a b c d)
                  (to_int (Z.lor p0 (LittleEndian.shl16 p1 8))))).
Proof.
  unfold ReadAddress. slice_eval.
  rewrite decide_True by reflexivity. slice_eval.
  rewrite (from_nat _ 5) by (cbn [length]; lia).
  cbn [drop mbind option_bind].
  rewrite Uint16_cons. reflexivity.
Qed.

Lemma IPv4_same a b c d port :
  same_address (Some (MkUDPAddr [a; b; c; d] port))
    (Some (MkUDPAddr (IPv4 a b c d) port)) = true.
Proof.
  unfold same_address, Equal, IPv4. cbn [IP Port].
  rewrite decide_False by (cbn; lia).
  rewrite decide_True by (cbn; auto).
  cbn [take drop app v4InV6Prefix].
  rewrite !bool_decide_eq_true_2; trivial.
Qed.

Lemma IPv4_round_trip a b c d port (buffer : list Z) :
  0 <= port <= 65535 -> 7 <= Slice.len buffer ->
  exists buffer',
    WriteAddress buffer (Some (MkUDPAddr [a; b; c; d] port)) = Some buffer'
    /\ ReadAddress buffer' = Some (Some (MkUDPAddr (IPv4 a b c d) port))
    /\ same_address (Some (MkUDPAddr [a; b; c; d] port))
         (Some (MkUDPAddr (IPv4 a b c d) port)) = true.
Proof.
  intros Hport Hlen. unfold Slice.len in Hlen.
  do 7 (destruct buffer as [|? buffer]; [simpl length in Hlen; lia|]).
  eexists. rewrite IPv4_written. split; [reflexivity|].
  rewrite IPv4_read, port_decoded by trivial.
  split; [reflexivity|apply IPv4_same].
Qed.

(** IPv6: the sixteen address bytes and the port are written, but the
    address read back is the whole of [buffer[1:]]: the sixteen bytes
    followed by the port bytes and whatever the buffer holds after them. *)
Lemma IPv6_round_trip_fails (ip : list Z) port (buffer : list Z) :
  length ip = IPv6len -> To4 ip = None -> 0 <= port <= 65535 ->
  19 <= Slice.len buffer ->
  exists buffer',
    WriteAddress buffer (Some (MkUDPAddr ip port)) = Some buffer'
    /\ ReadAddress buffer'
       = Some (Some (MkUDPAddr
                       (ip ++ to_byte (Z.land port 0xFF)
                           :: to_byte (Z.shiftr port 8) :: drop 19 buffer)
                       port))
    /\ Equal ip (ip ++ to_byte (Z.land port 0xFF)
                    :: to_byte (Z.shiftr port 8) :: drop 19 buffer) = false.
Proof.
  intros Hip Hv Hport Hlen. unfold Slice.len in Hlen.
  do 19 (destruct buffer as [|? buffer]; [simpl length in Hlen; lia|]).
  clear Hlen. unfold IPv6len in Hip.
  do 16 (destruct ip as [|? ip]; [discriminate Hip|]).
  destruct ip; [|discriminate Hip]. clear Hip.
  unfold WriteAddress. cbn [IP Port]. rewrite Hv.
  eexists. split; [|split].
  - slice_eval.
    rewrite (from_nat _ 1) by (cbn [length]; lia).
    cbn [mbind option_bind]. cbv zeta.
    unfold Slice.rejoin, Slice.copy. to_nat_literals.
    cbn [length take drop app]. slice_eval. reflexivity.
  - unfold ReadAddress. slice_eval.
    rewrite decide_False by discriminate.
    rewrite decide_True by reflexivity.
    rewrite (from_nat _ 1) by (cbn [length]; lia).
    cbn [mbind option_bind].
    cbn [drop mbind option_bind].
    rewrite (from_nat _ 17) by (cbn [length]; lia).
    cbn [mbind option_bind take drop]. rewrite Uint16_cons.
    cbn [mbind option_bind]. rewrite port_decoded by trivial.
    reflexivity.
  - unfold Equal, IPv4len, IPv6len.
    rewrite !decide_False; trivial; cbn [length app]; lia.
Qed.

End AddressCodec.

(** C6.  The IPv6 address 2001:db8::1 with port 40000, written by
    [WriteAddress] into a 19-byte buffer and read by [ReadAddress]: the
    buffer holds tag 2, the sixteen address bytes and the port bytes
    [0x40, 0x9C]; the address read back has the right port, but its [IP] is
    the 18 bytes [buffer[1:]], the sixteen address bytes followed by the two
    port bytes, which is not the address that was written.  The IPv4 address
    203.0.113.5 with port 40000 is encoded as tag 1, bytes [203,0,113,5] and
    port bytes [0x40, 0x9C], and it and the absent address are read back as
    written. *)
Theorem ReadAddress_WriteAddress_IPv6 :
  let ip := [0x20; 0x01; 0x0d; 0xb8; 0; 0; 0; 0; 0; 0; 0; 0; 0; 0; 0; 1] in
  let address := Some (Net.MkUDPAddr ip 40000) in
  let v4 := Some (Net.MkUDPAddr [203; 0; 113; 5] 40000) in
  Address.WriteAddress (replicate 19 0) address
  = Some (2 :: ip ++ [0x40; 0x9C])
  /\ Address.ReadAddress (2 :: ip ++ [0x40; 0x9C])
     = Some (Some (Net.MkUDPAddr (ip ++ [0x40; 0x9C]) 40000))
  /\ Address.same_address address
       (Some (Net.MkUDPAddr (ip ++ [0x40; 0x9C]) 40000)) = false
  /\ Address.WriteAddress (replicate 19 0) v4
     = Some ([1; 203; 0; 113; 5; 0x40; 0x9C] ++ replicate 12 0)
  /\ Address.ReadAddress ([1; 203; 0; 113; 5; 0x40; 0x9C] ++ replicate 12 0)
     = Some (Some (Net.MkUDPAddr (Net.IPv4 203 0 113 5) 40000))
  /\ Address.same_address v4
       (Some (Net.MkUDPAddr (Net.IPv4 203 0 113 5) 40000)) = true
  /\ Address.WriteAddress (replicate 19 0) None = Some (replicate 19 0)
  /\ Address.ReadAddress (replicate 19 0) = Some None.
Proof. repeat split; vm_compute; reflexivity. Qed.

(** C9.  The placeholder [GetAddressData] returns empty output for every
    address (absent, IPv4 or IPv6, any bytes, any port): the port and the
    byte count behind its two pointers are zero afterwards, whatever they
    were, and the [addressData] buffer is as it was. *)
Theorem GetAddressData_empty
  (address : option Net.UDPAddr) (addressData : list Z)
  (addressPort addressBytes : Z) :
  Address.GetAddressData address addressData addressPort addressBytes
  = (addressData, 0, 0).
Proof. reflexivity. Qed.

(** C10, as the code has it.  [ReadAddress] and [WriteAddress] check no
    bound and report no failure; which offsets they touch depends on the
    tag, respectively on the address.  [ReadAddress] goes out of range
    exactly when the buffer is empty, or the tag is 1 and the buffer is
    shorter than 7 bytes, or the tag is 2 and the buffer is shorter than the
    19-byte slot.  [WriteAddress] goes out of range exactly when the buffer
    is empty (absent address), shorter than 7 bytes (IPv4 address), or
    shorter than the 19-byte slot (any other address). *)
Theorem address_access_out_of_range (buffer : list Z) :
  (Address.ReadAddress buffer = None
   <-> Slice.len buffer = 0
       \/ (Slice.load buffer 0 = Some Address.IPAddressIPv4
           /\ Slice.len buffer < 7)
       \/ (Slice.load buffer 0 = Some Address.IPAddressIPv6
           /\ Slice.len buffer < Address.AddressSize))
  /\ (forall address,
        Address.WriteAddress buffer address = None
        <-> match address with
            | None => Slice.len buffer = 0
            | Some a =>
                match Net.To4 (Net.IP a) with
                | Some _ => Slice.len buffer < 7
                | None => Slice.len buffer < Address.AddressSize
                end
            end).
Proof.
  split; [apply ReadAddress_panics|].
  intros address. apply WriteAddress_panics.
Qed.

(** Buffers shorter than the 19-byte slot that are read and written within
    their bounds: one byte with tag 0 or an unknown tag, seven bytes with
    tag 1. *)
Lemma short_buffer_in_range :
  Slice.len [0] < Address.AddressSize
  /\ Address.ReadAddress [0] = Some None
  /\ Address.ReadAddress [7] = Some None
  /\ Address.WriteAddress [7] None = Some [0]
  /\ Slice.len [1; 203; 0; 113; 5; 0x40; 0x9C] < Address.AddressSize
  /\ Address.ReadAddress [1; 203; 0; 113; 5; 0x40; 0x9C]
     = Some (Some (Net.MkUDPAddr (Net.IPv4 203 0 113 5) 40000))
  /\ Address.WriteAddress (replicate 7 0)
       (Some (Net.MkUDPAddr [203; 0; 113; 5] 40000))
     = Some [1; 203; 0; 113; 5; 0x40; 0x9C].
Proof. repeat split; vm_compute; reflexivity. Qed.

(** The cases the out-of-range accesses are reached in: the empty buffer,
    a short buffer with tag 2, an IPv6 address and a short buffer. *)
Lemma short_buffer_out_of_range (buffer : list Z) (ip : list Z) (port : Z) :
  Slice.len buffer < Address.AddressSize ->
  Address.ReadAddress [] = None
  /\ (forall address, Address.WriteAddress [] address = None)
  /\ (Slice.load buffer 0 = Some Address.IPAddressIPv6 ->
      Address.ReadAddress buffer = None)
  /\ (Net.To4 ip = None ->
      Address.WriteAddress buffer (Some (Net.MkUDPAddr ip port)) = None).
Proof.
  intros Hlen. split; [reflexivity|]. split; [|split].
  - intros address. apply WriteAddress_panics.
    change (Slice.len []) with 0. unfold Address.AddressSize.
    destruct address as [a|]; [destruct (Net.To4 (Net.IP a))|]; lia.
  - intros Ht. apply ReadAddress_panics. auto.
  - intros Hv. apply WriteAddress_panics. cbn [Net.IP]. rewrite Hv. trivial.
Qed.

(** ** Bytes, by enumeration and by bits *)

Section ByteFacts.

Lemma byte_cases (P : Z -> bool) :
  forallb P Props.all_bytes = true -> forall d, is_byte d -> P d = true.
Proof.
  intros H d Hd. rewrite forallb_forall in H. apply H.
  unfold Props.all_bytes. apply in_map_iff. exists (Z.to_nat d).
  unfold is_byte in Hd. split; [lia|]. apply in_seq. lia.
Qed.

Lemma is_byte_mod x : is_byte x <-> x mod 2 ^ 8 = x.
Proof.
  unfold is_byte. split; intros H.
  - apply Z.mod_small; trivial.
  - rewrite <- H. apply Z.mod_pos_bound. lia.
Qed.

Lemma byte_high_bits x n : is_byte x -> 8 <= n -> Z.testbit x n = false.
Proof.
  intros Hx Hn. apply is_byte_mod in Hx. rewrite <- Hx.
  apply Z.mod_pow2_bits_high. lia.
Qed.

Lemma lxor_byte a b : is_byte a -> is_byte b -> is_byte (Z.lxor a b).
Proof.
  intros Ha Hb. apply is_byte_mod. apply Z.bits_inj'. intros n Hn.
  destruct (Z.lt_ge_cases n 8).
  - apply Z.mod_pow2_bits_low. lia.
  - rewrite Z.mod_pow2_bits_high, Z.lxor_spec, !byte_high_bits
      by (trivial; lia).
    reflexivity.
Qed.

Lemma lor_byte a b : is_byte a -> is_byte b -> is_byte (Z.lor a b).
Proof.
  rewrite !is_byte_mod. intros Ha Hb.
  rewrite <- !Z.land_ones in * by lia.
  rewrite Z.land_lor_distr_l, Ha, Hb. trivial.
Qed.

Lemma lor_1_odd x : Z.odd (Z.lor 1 x) = true.
Proof. rewrite <- Z.bit0_odd, Z.lor_spec. reflexivity. Qed.

End ByteFacts.

(** Proves an equation on one byte by running both sides on the 256
    values. *)
Ltac by_enumeration :=
  match goal with
  | Hd : is_byte ?d |- @eq Z ?L ?R =>
      let b := constr:(L =? R) in
      let P := eval pattern d in b in
      match P with
      | ?f d =>
          apply Z.eqb_eq; apply (byte_cases f);
          [vm_compute; reflexivity|exact Hd]
      end
  | Hd : is_byte ?d |- @eq bool ?L true =>
      let P := eval pattern d in L in
      match P with
      | ?f d => apply (byte_cases f); [vm_compute; reflexivity|exact Hd]
      end
  end.

(** ** The tags against the wire contract *)

Section TagFacts.
Import Tag Wire.

Lemma Write_fnv1a64 h l : Fnv.Write h l = fnv1a64 h l.
Proof.
  unfold Fnv.Write. revert h.
  induction l as [|c l IH]; intros h; [reflexivity|].
  cbn [fold_left fnv1a64]. rewrite IH. reflexivity.
Qed.

Lemma fnv1a64_app h a b : fnv1a64 (fnv1a64 h a) b = fnv1a64 h (a ++ b).
Proof.
  revert h. induction a as [|c a IH]; intros h; [reflexivity|].
  cbn [app fnv1a64]. apply IH.
Qed.

Lemma fnv1a64_range h l : is_uint64 h -> is_uint64 (fnv1a64 h l).
Proof.
  revert h. induction l as [|c l IH]; intros h Hh; [exact Hh|].
  cbn [fnv1a64]. apply IH. unfold is_uint64. apply Z.mod_pos_bound. lia.
Qed.

Lemma le_bytes_mod n v :
  le_bytes n (v mod 2 ^ (8 * Z.of_nat n)) = le_bytes n v.
Proof.
  revert v. induction n as [|n IH]; intros v; [reflexivity|].
  replace (2 ^ (8 * Z.of_nat (S n))) with (256 * 2 ^ (8 * Z.of_nat n)).
  2:{ replace (8 * Z.of_nat (S n)) with (8 + 8 * Z.of_nat n) by lia.
      rewrite Z.pow_add_r by lia. reflexivity. }
  assert (0 < 2 ^ (8 * Z.of_nat n)) by (apply Z.pow_pos_nonneg; lia).
  rewrite Z.rem_mul_r by lia. cbn [le_bytes].
  pose proof (Z.mod_pos_bound v 256 ltac:(lia)).
  set (X := (v / 256) mod 2 ^ (8 * Z.of_nat n)).
  replace ((v mod 256 + 256 * X) mod 256) with (v mod 256)
    by (Z.div_mod_to_equations; lia).
  replace ((v mod 256 + 256 * X) / 256) with X
    by (Z.div_mod_to_equations; lia).
  f_equal. apply IH.
Qed.

Lemma le_bytes_uint32 v : le_bytes 4 (to_uint32 v) = le_bytes 4 v.
Proof. apply (le_bytes_mod 4). Qed.

Lemma le_bytes_uint64 v : le_bytes 8 (to_uint64 v) = le_bytes 8 v.
Proof. apply (le_bytes_mod 8). Qed.

Lemma sum_loop_spec x l :
  sum_loop (x mod 2 ^ 16) l = (x + byte_sum l) mod 2 ^ 16.
Proof.
  unfold sum_loop, byte_sum. revert x.
  induction l as [|c l IH]; intros x; cbn [fold_left foldr].
  - f_equal. lia.
  - unfold to_uint16. rewrite Zplus_mod_idemp_l, IH. f_equal. lia.
Qed.

Lemma sum_step x c : to_uint16 (x mod 2 ^ 16 + c) = (x + c) mod 2 ^ 16.
Proof. unfold to_uint16. apply Zplus_mod_idemp_l. Qed.

Lemma byte_sum_app a b : byte_sum (a ++ b) = byte_sum a + byte_sum b.
Proof.
  unfold byte_sum. induction a as [|c a IH]; cbn [app foldr]; lia.
Qed.

End TagFacts.

Section PittleFacts.
Import Tag Wire.

Lemma pittle_bytes lo hi :
  is_byte lo -> is_byte hi ->
  let o0 := Z.lor 1 (Z.lxor (Z.lxor lo hi) 193) in
  is_byte o0 /\ byte_sub 255 o0 = 255 - o0
  /\ is_byte (Z.lor 1 (Z.lxor (255 - o0) 113)).
Proof.
  intros Hlo Hhi o0.
  assert (Ho : is_byte o0).
  { apply lor_byte; [unfold is_byte; lia|].
    apply lxor_byte; [apply lxor_byte; trivial|unfold is_byte; lia]. }
  split; [trivial|]. unfold is_byte in Ho. split.
  - unfold byte_sub, to_byte. apply Z.mod_small. lia.
  - apply lor_byte; [unfold is_byte; lia|].
    apply lxor_byte; unfold is_byte; lia.
Qed.

Lemma GeneratePittle_cons o0 o1 rest fromAddress fromPort toAddress toPort
  packetLength :
  GeneratePittle (o0 :: o1 :: rest) fromAddress fromPort toAddress toPort
    packetLength
  = Some (pittle fromAddress fromPort toAddress toPort packetLength ++ rest).
Proof.
  unfold GeneratePittle.
  rewrite !PutUint16_cons, PutUint32_cons. cbn [mbind option_bind].
  slice_eval. cbv zeta.
  set (input := pittle_input fromAddress fromPort toAddress toPort
                  packetLength).
  match goal with
  | |- LittleEndian.PutUint16 _ ?s ≫= _ = _ =>
      replace s with (byte_sum input mod 2 ^ 16)
  end.
  2:{ change (sum_loop 0 fromAddress)
        with (sum_loop (0 mod 2 ^ 16) fromAddress).
      rewrite sum_loop_spec, !sum_step, sum_loop_spec, !sum_step.
      f_equal. unfold input, pittle_input.
      rewrite <- (le_bytes_uint32 packetLength).
      rewrite <- !le_bytes_2, <- le_bytes_4, !byte_sum_app.
      unfold byte_sum at 2 4 5. cbn [foldr]. lia. }
  rewrite PutUint16_cons. cbn [mbind option_bind]. slice_eval.
  unfold pittle. fold input. cbv zeta. cbn [app].
  set (sum := byte_sum input mod 2 ^ 16).
  assert (Hsum : is_uint16 sum)
    by (apply Z.mod_pos_bound; lia).
  assert (Hhi : to_byte (Z.shiftr sum 8) = sum / 256).
  { unfold to_byte, is_uint16 in *. rewrite Z.shiftr_div_pow2 by lia.
    apply Z.mod_small. Z.div_mod_to_equations. lia. }
  rewrite Hhi. change (to_byte sum) with (sum mod 256).
  destruct (pittle_bytes (sum mod 256) (sum / 256)) as (_ & Hsub & _).
  { apply Z.mod_pos_bound. lia. }
  { unfold is_byte, is_uint16 in *. Z.div_mod_to_equations. lia. }
  cbv zeta in Hsub. rewrite Hsub. reflexivity.
Qed.

(** Both bytes of a Pittle tag are odd bytes. *)
Lemma pittle_odd fromAddress fromPort toAddress toPort packetLength :
  Forall (fun b => is_byte b /\ Z.odd b = true /\ b <> 0)
    (pittle fromAddress fromPort toAddress toPort packetLength).
Proof.
  unfold pittle. cbv zeta.
  set (sum := byte_sum _ mod 2 ^ 16).
  assert (Hsum : is_uint16 sum) by (apply Z.mod_pos_bound; lia).
  destruct (pittle_bytes (sum mod 256) (sum / 256)) as (H0 & _ & H1).
  { apply Z.mod_pos_bound. lia. }
  { unfold is_byte, is_uint16 in *. Z.div_mod_to_equations. lia. }
  assert (Hnz : forall x, Z.lor 1 x <> 0).
  { intros x Hx. pose proof (lor_1_odd x) as Ho. rewrite Hx in Ho.
    discriminate Ho. }
  cbv zeta in H0, H1.
  constructor; [|constructor; [|constructor]];
    (split; [assumption|split; [apply lor_1_odd|apply Hnz]]).
Qed.

End PittleFacts.

(** C2.  For every from-address, from-port, to-address, to-port and packet
    length, [GeneratePittle] fills the first two bytes of its output with
    the Pittle tag of the wire contract: with [sum] the sum, modulo 2^16, of
    the from-address bytes, the two little-endian from-port bytes, the
    to-address bytes, the two little-endian to-port bytes and the four
    little-endian packet-length bytes, [output[0] = 1 | (low ^ high ^ 193)]
    and [output[1] = 1 | ((255 - output[0]) ^ 113)]; the rest of the output
    is untouched.  Both bytes are odd, hence nonzero. *)
Theorem GeneratePittle_correct (output fromAddress : list Z) (fromPort : Z)
  (toAddress : list Z) (toPort packetLength : Z) :
  2 <= Slice.len output ->
  Tag.GeneratePittle output fromAddress fromPort toAddress toPort packetLength
  = Some (Wire.pittle fromAddress fromPort toAddress toPort packetLength
            ++ drop 2 output)
  /\ Forall (fun b => is_byte b /\ Z.odd b = true /\ b <> 0)
       (Wire.pittle fromAddress fromPort toAddress toPort packetLength).
Proof.
  intros Hlen. split; [|apply pittle_odd].
  unfold Slice.len in Hlen.
  do 2 (destruct output as [|? output]; [simpl length in Hlen; lia|]).
  apply GeneratePittle_cons.
Qed.

Lemma GeneratePittle_correct_witness :
  Tag.GeneratePittle [0; 0] [1; 2; 3; 4] 1000 [5; 6; 7; 8] 2000 20
  = Some (Wire.pittle [1; 2; 3; 4] 1000 [5; 6; 7; 8] 2000 20 ++ drop 2 [0; 0])
  /\ Forall (fun b => is_byte b /\ Z.odd b = true /\ b <> 0)
       (Wire.pittle [1; 2; 3; 4] 1000 [5; 6; 7; 8] 2000 20).
Proof.
  apply (GeneratePittle_correct [0; 0] [1; 2; 3; 4] 1000 [5; 6; 7; 8] 2000 20).
  vm_compute. discriminate.
Defined.

Section ChonkleFacts.
Import Tag Wire.

Lemma store_if (P : Prop) `{Decision P} o i a b :
  (if decide P then Slice.store o i a else Slice.store o i b)
  = Slice.store o i (if decide P then a else b).
Proof. case_decide; reflexivity. Qed.

Lemma chonkle_hash_spec magic fromAddress fromPort toAddress toPort
  packetLength :
  chonkle_hash magic fromAddress fromPort toAddress toPort packetLength
  = Some (le_bytes 8
            (fnv1a64 14695981039346656037
               (chonkle_input magic fromAddress fromPort toAddress toPort
                  packetLength))).
Proof.
  unfold chonkle_hash.
  rewrite !PutUint16_cons, PutUint32_cons. cbn [mbind option_bind].
  cbv zeta. unfold Fnv.Sum64, Fnv.New64a, Fnv.offset64.
  rewrite !Write_fnv1a64, !fnv1a64_app.
  rewrite PutUint64_cons, le_bytes_8, le_bytes_uint64.
  rewrite le_bytes_2, le_bytes_2, le_bytes_4, le_bytes_uint32.
  reflexivity.
Qed.

Lemma GenerateChonkle_cons
  o0 o1 o2 o3 o4 o5 o6 o7 o8 o9 o10 o11 o12 o13 o14 rest
  magic fromAddress fromPort toAddress toPort packetLength :
  GenerateChonkle
    (o0 :: o1 :: o2 :: o3 :: o4 :: o5 :: o6 :: o7 :: o8 :: o9 :: o10
        :: o11 :: o12 :: o13 :: o14 :: rest)
    magic fromAddress fromPort toAddress toPort packetLength
  = Some (chonkle magic fromAddress fromPort toAddress toPort packetLength
            ++ rest).
Proof.
  unfold GenerateChonkle, chonkle. rewrite chonkle_hash_spec.
  set (h := fnv1a64 _ _).
  unfold chonkle_table, hash_byte.
  cbn [mbind option_bind le_bytes nth app].
  set (d7 := (h / 256 / 256 / 256 / 256 / 256 / 256 / 256) mod 256).
  set (d6 := (h / 256 / 256 / 256 / 256 / 256 / 256) mod 256).
  set (d5 := (h / 256 / 256 / 256 / 256 / 256) mod 256).
  set (d4 := (h / 256 / 256 / 256 / 256) mod 256).
  set (d3 := (h / 256 / 256 / 256) mod 256).
  set (d2 := (h / 256 / 256) mod 256).
  set (d1 := (h / 256) mod 256).
  set (d0 := h mod 256).
  assert (H7 : is_byte d7) by (apply Z.mod_pos_bound; lia).
  assert (H6 : is_byte d6) by (apply Z.mod_pos_bound; lia).
  assert (H5 : is_byte d5) by (apply Z.mod_pos_bound; lia).
  assert (H4 : is_byte d4) by (apply Z.mod_pos_bound; lia).
  assert (H3 : is_byte d3) by (apply Z.mod_pos_bound; lia).
  assert (H2 : is_byte d2) by (apply Z.mod_pos_bound; lia).
  assert (H1 : is_byte d1) by (apply Z.mod_pos_bound; lia).
  clearbody d0 d1 d2 d3 d4 d5 d6 d7. clear h.
  repeat first [ rewrite store_if | slice_step ].
  apply f_equal. repeat (apply (f_equal2 cons)); try reflexivity.
  all: by_enumeration.
Qed.

End ChonkleFacts.

(** C1.  For every magic, from-address, from-port, to-address, to-port and
    packet length, [GenerateChonkle] fills the first 15 bytes of its output
    with the Chonkle tag of the wire contract and leaves the rest untouched:
    with [h] the 64-bit FNV-1a hash of magic, from-address, from-port (2
    bytes little-endian), to-address, to-port (2 bytes little-endian) and
    packet length (4 bytes little-endian), and [d i] byte [i] of [h] laid out
    as 8 little-endian bytes, the 15 bytes are the rows of the table
    [Wire.chonkle_table]; in particular [output[0] = ((d 6 & 0xC0) >> 6) +
    42], [output[3] = d 0], [output[7]] is 79 or 7 by bit 0 of [d 7],
    [output[8]] is 37 or 83 by bit 7 of [d 4], and [output[12]] is 97, 5, 43
    or 13 by the low two bits of [d 1]. *)
Theorem GenerateChonkle_correct (output magic fromAddress : list Z)
  (fromPort : Z) (toAddress : list Z) (toPort packetLength : Z) :
  15 <= Slice.len output ->
  let h := Wire.fnv1a64 14695981039346656037
             (magic ++ fromAddress ++ Wire.le_bytes 2 fromPort
                ++ toAddress ++ Wire.le_bytes 2 toPort
                ++ Wire.le_bytes 4 packetLength) in
  let d := Wire.hash_byte h in
  let tag := Wire.chonkle_table h in
  Tag.GenerateChonkle output magic fromAddress fromPort toAddress toPort
    packetLength = Some (tag ++ drop 15 output)
  /\ length tag = 15%nat
  /\ tag !! 0%nat = Some (Z.shiftr (Z.land (d 6%nat) 0xC0) 6 + 42)
  /\ tag !! 3%nat = Some (d 0%nat)
  /\ tag !! 7%nat = Some (if Z.testbit (d 7%nat) 0 then 7 else 79)
  /\ tag !! 8%nat = Some (if Z.testbit (d 4%nat) 7 then 83 else 37)
  /\ tag !! 12%nat
     = Some (match d 1%nat mod 4 with
             | 0 => 97 | 1 => 5 | 2 => 43 | _ => 13
             end).
Proof.
  intros Hlen h d tag. split; [|repeat split].
  - unfold Slice.len in Hlen.
    do 15 (destruct output as [|? output]; [simpl length in Hlen; lia|]).
    apply GenerateChonkle_cons.
  - unfold tag, Wire.chonkle_table. cbn [lookup list_lookup]. f_equal.
    fold d. assert (Hm : 0 <= d 1%nat mod 4 < 4)
      by (apply Z.mod_pos_bound; lia).
    assert (Hc : d 1%nat mod 4 = 0 \/ d 1%nat mod 4 = 1
                 \/ d 1%nat mod 4 = 2 \/ d 1%nat mod 4 = 3) by lia.
    destruct Hc as [Hc|[Hc|[Hc|Hc]]]; rewrite Hc; reflexivity.
Qed.

Lemma GenerateChonkle_correct_witness :
  Tag.GenerateChonkle (replicate 15 0) [0; 0; 0; 0; 0; 0; 0; 0]
    [1; 2; 3; 4] 1000 [5; 6; 7; 8] 2000 20
  = Some [45; 216; 24; 33; 80; 96; 162; 7; 83; 126; 182; 41; 43; 214; 134].
Proof.
  destruct (GenerateChonkle_correct (replicate 15 0) [0; 0; 0; 0; 0; 0; 0; 0]
              [1; 2; 3; 4] 1000 [5; 6; 7; 8] 2000 20) as [H _].
  - vm_compute. discriminate.
  - rewrite H. vm_compute. reflexivity.
Defined.

Section FilterFacts.
Import Tag Wire Filter.

Lemma hash_byte_range h i : is_byte (hash_byte h i).
Proof.
  unfold hash_byte. cbn [le_bytes].
  do 8 (destruct i as [|i]; [apply Z.mod_pos_bound; lia|]).
  destruct i; cbn [nth]; unfold is_byte; lia.
Qed.

(** Closes [~ P] for a condition [P] of the basic filter on a table row,
    by enumeration of the hash byte the row is made of. *)
Ltac in_filter :=
  apply (proj1 (bool_decide_eq_true _)); by_enumeration.

Lemma BasicPacketFilter_chonkle_table h x0 rest packetLength :
  18 <= packetLength -> 0x01 <= x0 <= 0x63 ->
  BasicPacketFilter (x0 :: chonkle_table h ++ rest) packetLength
  = Some true.
Proof.
  intros Hlen Hx0. unfold chonkle_table.
  pose proof (hash_byte_range h 0) as H0.
  pose proof (hash_byte_range h 1) as H1.
  pose proof (hash_byte_range h 2) as H2.
  pose proof (hash_byte_range h 3) as H3.
  pose proof (hash_byte_range h 4) as H4.
  pose proof (hash_byte_range h 5) as H5.
  pose proof (hash_byte_range h 6) as H6.
  pose proof (hash_byte_range h 7) as H7.
  cbv zeta.
  generalize dependent (hash_byte h 0). intros d0 H0.
  generalize dependent (hash_byte h 1). intros d1 H1.
  generalize dependent (hash_byte h 2). intros d2 H2.
  generalize dependent (hash_byte h 3). intros d3 H3.
  generalize dependent (hash_byte h 4). intros d4 H4.
  generalize dependent (hash_byte h 5). intros d5 H5.
  generalize dependent (hash_byte h 6). intros d6 H6.
  generalize dependent (hash_byte h 7). intros d7 H7.
  unfold BasicPacketFilter. cbn [app].
  rewrite !load_Some by lia. to_nat_literals.
  cbn [lookup list_lookup mbind option_bind].
  repeat (rewrite decide_False by first [lia | in_filter]).
  reflexivity.
Qed.

End FilterFacts.

(** C4.  The basic filter accepts every packet that carries a Chonkle tag:
    for every magic, addresses, ports and packet length, every buffer of at
    least 18 bytes whose byte 0 lies in [0x01, 0x63] and whose bytes [1, 16)
    are the output of [GenerateChonkle] is accepted by [BasicPacketFilter].
    Each range or set the filter tests at bytes 1 to 15 thus contains every
    value the Chonkle formula of that byte can take; byte 4, a hash byte
    copied as it is, is not tested. *)
Theorem BasicPacketFilter_accepts_chonkle (data magic fromAddress : list Z)
  (fromPort : Z) (toAddress : list Z) (toPort packetLength : Z)
  (tag : list Z) (d0 : Z) :
  18 <= Slice.len data ->
  Slice.load data 0 = Some d0 ->
  0x01 <= d0 <= 0x63 ->
  Tag.GenerateChonkle (replicate 15 0) magic fromAddress fromPort toAddress
    toPort packetLength = Some tag ->
  Slice.sub data 1 16 = Some tag ->
  Filter.BasicPacketFilter data (Slice.len data) = Some true.
Proof.
  intros Hlen H0 Hd0 Htag Hsub.
  assert (Hc : Tag.GenerateChonkle (replicate 15 0) magic fromAddress fromPort
                 toAddress toPort packetLength
               = Some (Wire.chonkle magic fromAddress fromPort toAddress
                         toPort packetLength ++ []))
    by apply GenerateChonkle_cons.
  rewrite Hc, app_nil_r in Htag. injection Htag as <-.
  rewrite sub_Some in Hsub by lia. injection Hsub as Hsub.
  assert (Hl : (16 <= length data)%nat) by (unfold Slice.len in Hlen; lia).
  set (n := Slice.len data) in *. clearbody n.
  do 16 (destruct data as [|? data]; [simpl length in Hl; lia|]).
  change (Z.to_nat (16 - 1)) with 15%nat in Hsub.
  change (Z.to_nat 1) with 1%nat in Hsub.
  cbn [take drop] in Hsub.
  injection H0 as ->.
  unfold Wire.chonkle in Hsub.
  match goal with
  | |- Filter.BasicPacketFilter (?x :: ?l) _ = _ =>
      replace l with (Wire.chonkle_table
                        (Wire.fnv1a64 14695981039346656037
                           (Wire.chonkle_input magic fromAddress fromPort
                              toAddress toPort packetLength)) ++ data)
  end.
  - apply BasicPacketFilter_chonkle_table; trivial.
  - rewrite <- Hsub. reflexivity.
Qed.

Lemma BasicPacketFilter_accepts_chonkle_witness :
  Filter.BasicPacketFilter
    [1; 45; 216; 24; 33; 80; 96; 162; 7; 83; 126; 182; 41; 43; 214; 134;
     0; 0; 59; 181] 20 = Some true.
Proof.
  apply (BasicPacketFilter_accepts_chonkle
           [1; 45; 216; 24; 33; 80; 96; 162; 7; 83; 126; 182; 41; 43; 214;
            134; 0; 0; 59; 181]
           [0; 0; 0; 0; 0; 0; 0; 0] [1; 2; 3; 4] 1000 [5; 6; 7; 8] 2000 20
           [45; 216; 24; 33; 80; 96; 162; 7; 83; 126; 182; 41; 43; 214; 134]
           1).
  - vm_compute. discriminate.
  - reflexivity.
  - lia.
  - vm_compute. reflexivity.
  - vm_compute. reflexivity.
Defined.

Section BasicFilter.
Import Filter.

Lemma load_insert_ne (data : list Z) i j c :
  i <> j -> 0 <= i ->
  Slice.load (<[Z.to_nat i := c]> data) j = Slice.load data j.
Proof.
  intros Hij Hi. unfold Slice.load. case_decide; trivial.
  apply list_lookup_insert_ne. lia.
Qed.

Lemma load_insert_eq (data : list Z) i c :
  0 <= i < Slice.len data ->
  Slice.load (<[Z.to_nat i := c]> data) i = Some c.
Proof.
  intros Hi. rewrite load_Some by lia.
  apply list_lookup_insert_eq. unfold Slice.len in Hi. lia.
Qed.

(** The verdict is a function of the packet length and the bytes at the
    checked offsets. *)
Lemma BasicPacketFilter_ext data data' packetLength :
  (forall i, In i Props.checked_offsets ->
             Slice.load data i = Slice.load data' i) ->
  BasicPacketFilter data packetLength = BasicPacketFilter data' packetLength.
Proof.
  intros H. unfold BasicPacketFilter.
  rewrite (H 0), (H 1), (H 2), (H 3), (H 5), (H 6), (H 7), (H 8), (H 9),
    (H 10), (H 11), (H 12), (H 13), (H 14), (H 15)
    by (unfold Props.checked_offsets; cbn [In]; tauto).
  reflexivity.
Qed.

(** Accepted packets have all sixteen header bytes. *)
Lemma BasicPacketFilter_true_len data packetLength :
  BasicPacketFilter data packetLength = Some true ->
  18 <= packetLength /\ 16 <= Slice.len data.
Proof.
  unfold BasicPacketFilter. case_decide; [discriminate|].
  intros Hacc. split; [lia|].
  repeat match type of Hacc with
    | (?m ≫= _) = _ =>
        destruct m eqn:?; cbn [mbind option_bind] in Hacc;
        [|discriminate Hacc]
    | (if decide ?P then _ else _) = _ =>
        destruct (decide P); [discriminate Hacc|]
    end.
  bounds. lia.
Qed.

(** Zero is outside every range and every set the filter tests, so
    zeroing any checked byte of an accepted packet gets it rejected. *)
Lemma BasicPacketFilter_checks data packetLength i :
  In i Props.checked_offsets ->
  BasicPacketFilter data packetLength = Some true ->
  BasicPacketFilter (<[Z.to_nat i := 0]> data) packetLength = Some false.
Proof.
  intros Hi Hacc.
  destruct (BasicPacketFilter_true_len _ _ Hacc) as [Hpl Hlen].
  unfold BasicPacketFilter in *.
  rewrite decide_False in * by lia.
  unfold Props.checked_offsets in Hi. cbn [In] in Hi.
  repeat match type of Hacc with
    | (?m ≫= _) = _ =>
        let c := fresh "c" in
        let Hc := fresh "Hc" in
        destruct m as [c|] eqn:Hc; cbn [mbind option_bind] in Hacc;
        [|discriminate Hacc]
    | (if decide ?P then _ else _) = _ =>
        destruct (decide P); [discriminate Hacc|]
    end.
  clear Hacc.
  repeat (destruct Hi as [<-|Hi];
          [ rewrite load_insert_eq by lia;
            repeat match goal with
              | Hc : Slice.load data ?j = Some _
                |- context [Slice.load (<[Z.to_nat ?i := 0]> data) ?j] =>
                  rewrite (load_insert_ne data i j 0), Hc by lia
              end;
            cbn [mbind option_bind];
            repeat match goal with
              | Hn : ~ ?P |- context [decide ?P] =>
                  rewrite (decide_False (P := P)) by exact Hn
              end;
            rewrite decide_True by lia; reflexivity
          | ]).
  destruct Hi.
Qed.

End BasicFilter.

(** C7.  [BasicPacketFilter] rejects every packet whose length is below 18
    (17, for one) whatever the buffer holds, and every packet of length 18
    or more whose byte 0 is outside [0x01, 0x63] (0x00, for one).  Its
    verdict is a function of the length and of the bytes at offsets 0, 1, 2,
    3, 5, 6, ..., 15: two buffers that agree there get the same verdict, so a
    change of byte 4 never changes it; and each of these offsets is tested:
    zeroing any one of them in an accepted packet gets the packet
    rejected. *)
Theorem BasicPacketFilter_boundaries (data : list Z) (packetLength : Z) :
  (packetLength < 18 ->
   Filter.BasicPacketFilter data packetLength = Some false)
  /\ (forall d0, 18 <= packetLength -> Slice.load data 0 = Some d0 ->
                 d0 < 0x01 \/ d0 > 0x63 ->
                 Filter.BasicPacketFilter data packetLength = Some false)
  /\ (forall c, Filter.BasicPacketFilter (<[4%nat := c]> data) packetLength
                = Filter.BasicPacketFilter data packetLength)
  /\ (forall data',
        (forall i, In i Props.checked_offsets ->
                   Slice.load data i = Slice.load data' i) ->
        Filter.BasicPacketFilter data packetLength
        = Filter.BasicPacketFilter data' packetLength)
  /\ (forall i, In i Props.checked_offsets ->
                Filter.BasicPacketFilter data packetLength = Some true ->
                Filter.BasicPacketFilter (<[Z.to_nat i := 0]> data)
                  packetLength = Some false).
Proof.
  split; [|split; [|split; [|split]]].
  - intros H. unfold Filter.BasicPacketFilter.
    rewrite decide_True by trivial. reflexivity.
  - intros d0 Hlen H0 Hd0. unfold Filter.BasicPacketFilter.
    rewrite decide_False by lia. rewrite H0. cbn [mbind option_bind].
    rewrite decide_True by trivial. reflexivity.
  - intros c. symmetry. apply BasicPacketFilter_ext. intros i Hi.
    symmetry. apply (load_insert_ne data 4 i c); [|lia].
    intros <-. unfold Props.checked_offsets in Hi. cbn [In] in Hi. lia.
  - intros data' H. apply BasicPacketFilter_ext. exact H.
  - intros i. apply BasicPacketFilter_checks.
Qed.

Lemma BasicPacketFilter_boundaries_witness :
  let good := [1; 45; 216; 24; 33; 80; 96; 162; 7; 83; 126; 182; 41; 43; 214;
               134; 0; 0] in
  Filter.BasicPacketFilter (take 17 good) 17 = Some false
  /\ Filter.BasicPacketFilter (<[0%nat := 0]> good) 18 = Some false
  /\ Filter.BasicPacketFilter (<[4%nat := 200]> good) 18
     = Filter.BasicPacketFilter good 18
  /\ Filter.BasicPacketFilter (<[Z.to_nat 13 := 0]> good) 18 = Some false.
Proof.
  intros good. split; [|split; [|split]].
  - destruct (BasicPacketFilter_boundaries (take 17 good) 17) as (H & _).
    apply H. lia.
  - destruct (BasicPacketFilter_boundaries (<[0%nat := 0]> good) 18)
      as (_ & H & _).
    apply (H 0); [lia|reflexivity|lia].
  - destruct (BasicPacketFilter_boundaries good 18) as (_ & _ & H & _).
    apply H.
  - destruct (BasicPacketFilter_boundaries good 18) as (_ & _ & _ & _ & H).
    apply H.
    + unfold Props.checked_offsets. cbn [In]. tauto.
    + vm_compute. reflexivity.
Defined.

(** ** The advanced filter *)

Section AdvancedFilter.
Import Filter.

Lemma Compare_eq a b : Bytes.Compare a b = 0 <-> a = b.
Proof.
  revert b. induction a as [|x a IH]; intros [|y b]; cbn [Bytes.Compare];
    try (split; [discriminate|discriminate]); [tauto|].
  repeat case_decide.
  - split; [discriminate|intros [= -> _]; lia].
  - split; [discriminate|intros [= -> _]; lia].
  - rewrite IH. split; [intros ->; f_equal; lia|intros [= _ ->]; trivial].
Qed.

Lemma int_sub_id a b : is_int (a - b) -> int_sub a b = a - b.
Proof. apply to_int_id. Qed.

Lemma chonkle_len magic fromAddress fromPort toAddress toPort packetLength :
  Slice.len (Wire.chonkle magic fromAddress fromPort toAddress toPort
               packetLength) = 15.
Proof. reflexivity. Qed.

Lemma pittle_len fromAddress fromPort toAddress toPort packetLength :
  Slice.len (Wire.pittle fromAddress fromPort toAddress toPort
               packetLength) = 2.
Proof. reflexivity. Qed.

(** What the filter computes on a packet as long as its stated length. *)
Lemma AdvancedPacketFilter_eval data magic fromAddress fromPort toAddress
  toPort packetLength :
  Slice.len data = packetLength -> 18 <= packetLength <= max_int ->
  AdvancedPacketFilter data magic fromAddress fromPort toAddress toPort
    packetLength
  = Some (bool_decide
            (take 15 (drop 1 data)
             = Wire.chonkle magic fromAddress fromPort toAddress toPort
                 packetLength)
          && bool_decide
               (take 2 (drop (Z.to_nat (packetLength - 2)) data)
                = Wire.pittle fromAddress fromPort toAddress toPort
                    packetLength)).
Proof.
  intros Hlen Hpl. unfold AdvancedPacketFilter.
  rewrite decide_False by lia. cbv zeta.
  rewrite (GenerateChonkle_cons 0 0 0 0 0 0 0 0 0 0 0 0 0 0 0 []).
  rewrite (GeneratePittle_cons 0 0 []).
  cbn [mbind option_bind]. rewrite !app_nil_r.
  rewrite (sub_Some _ 0 15) by (rewrite ?chonkle_len; lia).
  rewrite (sub_Some data 1 16) by lia.
  cbn [mbind option_bind].
  change (Z.to_nat (15 - 0)) with 15%nat.
  change (Z.to_nat (16 - 1)) with 15%nat.
  change (Z.to_nat 0) with 0%nat. change (Z.to_nat 1) with 1%nat.
  change (take 15 (drop 0 ?t)) with t.
  case_decide as Hc.
  - rewrite Compare_eq in Hc.
    rewrite bool_decide_eq_false_2 by (intros E; apply Hc; auto).
    reflexivity.
  - rewrite Compare_eq in Hc.
    rewrite bool_decide_eq_true_2 by auto.
    rewrite (sub_Some _ 0 2) by (rewrite ?pittle_len; lia).
    rewrite int_sub_id by (unfold is_int, min_int, max_int in *; lia).
    rewrite (sub_Some data) by lia.
    cbn [mbind option_bind andb].
    change (Z.to_nat (2 - 0)) with 2%nat.
    replace (Z.to_nat (packetLength - (packetLength - 2))) with 2%nat by lia.
    change (Z.to_nat 0) with 0%nat.
    change (take 2 (drop 0 ?t)) with t.
    case_decide as Hp.
    + rewrite Compare_eq in Hp.
      rewrite bool_decide_eq_false_2 by (intros E; apply Hp; auto).
      reflexivity.
    + rewrite Compare_eq in Hp.
      rewrite bool_decide_eq_true_2 by auto. reflexivity.
Qed.

End AdvancedFilter.

Section Flips.
Import Props.

Lemma flipped_len data data' i :
  flipped_at data data' i -> Slice.len data' = Slice.len data.
Proof.
  intros (c & _ & -> & _). unfold Slice.len. rewrite length_insert. trivial.
Qed.

(** A flip inside a window shows in the window. *)
Lemma flipped_region (data data' : list Z) i (lo n : nat) :
  flipped_at data data' i ->
  Z.of_nat lo <= i < Z.of_nat lo + Z.of_nat n ->
  take n (drop lo data') <> take n (drop lo data).
Proof.
  intros (c & Hi & -> & Hne) Hin E. unfold Slice.len in Hi.
  apply (f_equal (fun l => l !! (Z.to_nat i - lo)%nat)) in E.
  rewrite !lookup_take_lt, !lookup_drop in E by lia.
  replace (lo + (Z.to_nat i - lo))%nat with (Z.to_nat i) in E by lia.
  rewrite list_lookup_insert_eq in E by lia. congruence.
Qed.

(** A flip behind a window does not show in it. *)
Lemma flipped_behind (data data' : list Z) i (lo n : nat) :
  flipped_at data data' i ->
  Z.of_nat lo + Z.of_nat n <= i ->
  take n (drop lo data') = take n (drop lo data).
Proof.
  intros (c & Hi & -> & Hne) Hin.
  rewrite drop_insert_ge, take_insert_ge by lia. reflexivity.
Qed.

End Flips.

(** C3.  For every packet buffer [data] of length [packetLength] and every
    context (magic, from-address, from-port, to-address, to-port),
    [AdvancedPacketFilter] returns, and it returns [true] if and only if
    [packetLength >= 18], [data[1:16]] is the 15 bytes [GenerateChonkle]
    produces for the context and [packetLength], and
    [data[packetLength-2:packetLength]] is the 2 bytes [GeneratePittle]
    produces for them.  So a packet that carries both tags is accepted; and
    when a packet is accepted, changing any single byte of it at an offset
    in [1, 16) or in [packetLength-2, packetLength) gives a packet that is
    rejected. *)
Theorem AdvancedPacketFilter_correct (data magic fromAddress : list Z)
  (fromPort : Z) (toAddress : list Z) (toPort packetLength : Z) :
  Slice.len data = packetLength ->
  packetLength <= max_int ->
  exists (a b : list Z) (verdict : bool),
    Tag.GenerateChonkle (replicate 15 0) magic fromAddress fromPort toAddress
      toPort packetLength = Some a
    /\ Slice.len a = 15
    /\ Tag.GeneratePittle (replicate 2 0) fromAddress fromPort toAddress
         toPort packetLength = Some b
    /\ Slice.len b = 2
    /\ Filter.AdvancedPacketFilter data magic fromAddress fromPort toAddress
         toPort packetLength = Some verdict
    /\ (verdict = true
        <-> 18 <= packetLength
            /\ Slice.sub data 1 16 = Some a
            /\ Slice.sub data (packetLength - 2) packetLength = Some b)
    /\ (verdict = true ->
        forall data' i,
          Props.flipped_at data data' i ->
          1 <= i < 16 \/ packetLength - 2 <= i < packetLength ->
          Filter.AdvancedPacketFilter data' magic fromAddress fromPort
            toAddress toPort packetLength = Some false).
Proof.
  intros Hlen Hmax.
  exists (Wire.chonkle magic fromAddress fromPort toAddress toPort
            packetLength),
         (Wire.pittle fromAddress fromPort toAddress toPort packetLength).
  destruct (decide (packetLength < 18)) as [Hshort|Hlong].
  - exists false.
    split; [rewrite <- (app_nil_r (Wire.chonkle _ _ _ _ _ _));
            apply GenerateChonkle_cons|].
    split; [reflexivity|].
    split; [rewrite <- (app_nil_r (Wire.pittle _ _ _ _ _));
            apply GeneratePittle_cons|].
    split; [reflexivity|].
    split; [unfold Filter.AdvancedPacketFilter;
            rewrite decide_True by trivial; reflexivity|].
    split; [|discriminate].
    split; [discriminate|]. intros [? _]. lia.
  - eexists.
    split; [rewrite <- (app_nil_r (Wire.chonkle _ _ _ _ _ _));
            apply GenerateChonkle_cons|].
    split; [reflexivity|].
    split; [rewrite <- (app_nil_r (Wire.pittle _ _ _ _ _));
            apply GeneratePittle_cons|].
    split; [reflexivity|].
    split; [apply AdvancedPacketFilter_eval; trivial; lia|].
    rewrite andb_true_iff, !bool_decide_eq_true.
    rewrite (sub_Some data 1 16), (sub_Some data (packetLength - 2))
      by lia.
    change (Z.to_nat (16 - 1)) with 15%nat. change (Z.to_nat 1) with 1%nat.
    replace (Z.to_nat (packetLength - (packetLength - 2))) with 2%nat by lia.
    split.
    + split.
      * intros [-> ->]. auto with lia.
      * intros (_ & [= ->] & [= ->]). auto.
    + intros [Hc Hp] data' i Hflip Hi.
      rewrite AdvancedPacketFilter_eval
        by (rewrite ?(flipped_len _ _ _ Hflip); trivial; lia).
      destruct Hi as [Hi|Hi].
      * rewrite bool_decide_eq_false_2; [reflexivity|].
        rewrite <- Hc. apply (flipped_region data data' i 1 15 Hflip). lia.
      * rewrite (bool_decide_eq_false_2
                   (take 2 (drop (Z.to_nat (packetLength - 2)) data') = _)).
        { rewrite andb_false_r. reflexivity. }
        rewrite <- Hp. apply (flipped_region data data' i _ 2 Hflip). lia.
Qed.

Lemma AdvancedPacketFilter_correct_witness :
  let good := [1; 45; 216; 24; 33; 80; 96; 162; 7; 83; 126; 182; 41; 43; 214;
               134; 0; 0; 59; 181] in
  Filter.AdvancedPacketFilter good [0; 0; 0; 0; 0; 0; 0; 0] [1; 2; 3; 4] 1000
    [5; 6; 7; 8] 2000 20 = Some true
  /\ Filter.AdvancedPacketFilter (<[Z.to_nat 5 := 0]> good)
       [0; 0; 0; 0; 0; 0; 0; 0] [1; 2; 3; 4] 1000 [5; 6; 7; 8] 2000 20
     = Some false
  /\ Filter.AdvancedPacketFilter (<[Z.to_nat 19 := 0]> good)
       [0; 0; 0; 0; 0; 0; 0; 0] [1; 2; 3; 4] 1000 [5; 6; 7; 8] 2000 20
     = Some false.
Proof.
  intros good.
  destruct (AdvancedPacketFilter_correct good [0; 0; 0; 0; 0; 0; 0; 0]
              [1; 2; 3; 4] 1000 [5; 6; 7; 8] 2000 20)
    as (a & b & verdict & Ha & _ & Hb & _ & Hv & Hiff & Hflip).
  - reflexivity.
  - vm_compute. discriminate.
  - vm_compute in Ha, Hb. injection Ha as <-. injection Hb as <-.
    assert (Ht : verdict = true).
    { apply Hiff. split; [lia|]. split; vm_compute; reflexivity. }
    subst verdict. split; [exact Hv|].
    split.
    + apply (Hflip eq_refl _ 5); [|lia].
      exists 0. split; [vm_compute; split; [discriminate|reflexivity]|].
      split; [reflexivity|]. vm_compute. discriminate.
    + apply (Hflip eq_refl _ 19); [|lia].
      exists 0. split; [vm_compute; split; [discriminate|reflexivity]|].
      split; [reflexivity|]. vm_compute. discriminate.
Defined.

(** * Further properties of the codec *)

(** ** The window of a fixed-width writer *)

Section WriterWindow.
Import Frame.

Lemma PutUint16_short b v :
  Slice.len b < 2 -> LittleEndian.PutUint16 b v = None.
Proof.
  intros H. unfold LittleEndian.PutUint16.
  rewrite load_None by lia. reflexivity.
Qed.

Lemma PutUint32_short b v :
  Slice.len b < 4 -> LittleEndian.PutUint32 b v = None.
Proof.
  intros H. unfold LittleEndian.PutUint32.
  rewrite load_None by lia. reflexivity.
Qed.

Lemma PutUint64_short b v :
  Slice.len b < 8 -> LittleEndian.PutUint64 b v = None.
Proof.
  intros H. unfold LittleEndian.PutUint64.
  rewrite load_None by lia. reflexivity.
Qed.

(** Outside the buffer, a write through [data[p:]] panics. *)
Lemma write_through_None (put : list Z -> Z -> option (list Z))
  (n : Z) data p v (k : list Z -> option (list Z * Z)) :
  (forall b, Slice.len b < n -> put b v = None) ->
  ~ (0 <= p /\ p + n <= Slice.len data) ->
  (b ← Slice.from data p; b ← put b v; k b) = None.
Proof.
  intros Hput Hout.
  destruct (Slice.from data p) as [b|] eqn:Hb; [|reflexivity].
  apply from_Some_len in Hb. cbn [mbind option_bind].
  rewrite Hput by lia. reflexivity.
Qed.

(** How a window is recognised: the writer replaces the [n] bytes at the
    cursor by [enc v], and panics when the window is not in the buffer. *)
Lemma writes_window_intro {T : Type}
  (write : list Z -> Z -> T -> option (list Z * Z)) (n : nat)
  (enc : T -> list Z) :
  (forall v, length (enc v) = n) ->
  (forall pre mid post v,
     length mid = n ->
     write (pre ++ mid ++ post) (Slice.len pre) v
     = Some (pre ++ enc v ++ post, int_add (Slice.len pre) (Z.of_nat n))) ->
  (forall data p v,
     ~ (0 <= p /\ p + Z.of_nat n <= Slice.len data) ->
     write data p v = None) ->
  writes_window write (Z.of_nat n).
Proof.
  intros Henc Hin Hout data p v.
  destruct (decide (0 <= p /\ p + Z.of_nat n <= Slice.len data))
    as [[Hp Hcap]|Hno].
  - destruct (split_at data p n Hp Hcap)
      as (pre & mid & post & -> & <- & Hmid).
    rewrite Hin by trivial. split; [split; eauto|].
    intros data' p' [= <- <-].
    split; [reflexivity|]. split; [|split].
    + rewrite !len_app. unfold Slice.len. rewrite Henc, Hmid. reflexivity.
    + unfold Slice.len. rewrite Nat2Z.id, !take_app_length. reflexivity.
    + unfold Slice.len.
      replace (Z.to_nat (Z.of_nat (length pre) + Z.of_nat n))
        with (length pre + n)%nat by lia.
      rewrite <- !drop_drop, !drop_app_length.
      rewrite <- (Henc v) at 1. rewrite <- Hmid.
      rewrite !drop_app_length. reflexivity.
  - rewrite Hout by trivial. split.
    + split; [intros [? [=]]|tauto].
    + discriminate.
Qed.

Ltac cells mid Hmid :=
  repeat (destruct mid as [|? mid]; [discriminate Hmid|]);
  destruct mid; [|discriminate Hmid]; cbn [app].

Ltac through :=
  rewrite from_app; cbn [mbind option_bind];
  rewrite ?PutUint16_cons, ?PutUint32_cons, ?PutUint64_cons;
  cbn [mbind option_bind]; rewrite rejoin_app; reflexivity.

Lemma WriteBool_window : writes_window WriteBool 1.
Proof.
  apply (writes_window_intro WriteBool 1
           (fun v : bool => [if v then 1 else 0])).
  - reflexivity.
  - intros pre mid post v Hmid. cells mid Hmid. unfold WriteBool.
    destruct v; rewrite store_at; reflexivity.
  - intros data p v Hout. unfold WriteBool.
    destruct v; rewrite store_None by lia; reflexivity.
Qed.

Lemma WriteUint8_window : writes_window WriteUint8 1.
Proof.
  apply (writes_window_intro WriteUint8 1 (fun v => [to_byte v])).
  - reflexivity.
  - intros pre mid post v Hmid. cells mid Hmid. unfold WriteUint8.
    rewrite store_at. reflexivity.
  - intros data p v Hout. unfold WriteUint8.
    rewrite store_None by lia. reflexivity.
Qed.

Lemma WriteUint16_window : writes_window WriteUint16 2.
Proof.
  apply (writes_window_intro WriteUint16 2
           (fun v => [to_byte v; to_byte (Z.shiftr v 8)])).
  - reflexivity.
  - intros pre mid post v Hmid. cells mid Hmid. unfold WriteUint16. through.
  - intros data p v Hout. unfold WriteUint16.
    apply (write_through_None LittleEndian.PutUint16 2); trivial.
    intros b. apply PutUint16_short.
Qed.

Lemma WriteUint32_window : writes_window WriteUint32 4.
Proof.
  apply (writes_window_intro WriteUint32 4
           (fun v => [to_byte v; to_byte (Z.shiftr v 8);
                      to_byte (Z.shiftr v 16); to_byte (Z.shiftr v 24)])).
  - reflexivity.
  - intros pre mid post v Hmid. cells mid Hmid. unfold WriteUint32. through.
  - intros data p v Hout. unfold WriteUint32.
    apply (write_through_None LittleEndian.PutUint32 4); trivial.
    intros b. apply PutUint32_short.
Qed.

Lemma WriteUint64_window : writes_window WriteUint64 8.
Proof.
  apply (writes_window_intro WriteUint64 8
           (fun v => [to_byte v; to_byte (Z.shiftr v 8);
                      to_byte (Z.shiftr v 16); to_byte (Z.shiftr v 24);
                      to_byte (Z.shiftr v 32); to_byte (Z.shiftr v 40);
                      to_byte (Z.shiftr v 48); to_byte (Z.shiftr v 56)])).
  - reflexivity.
  - intros pre mid post v Hmid. cells mid Hmid. unfold WriteUint64. through.
  - intros data p v Hout. unfold WriteUint64.
    apply (write_through_None LittleEndian.PutUint64 8); trivial.
    intros b. apply PutUint64_short.
Qed.

Lemma WriteFloat32_window : writes_window WriteFloat32 4.
Proof.
  intros data p v. unfold WriteFloat32.
  apply (WriteUint32_window data p (Float32bits v)).
Qed.

Lemma WriteFloat64_window : writes_window WriteFloat64 8.
Proof.
  intros data p v. unfold WriteFloat64.
  apply (WriteUint64_window data p (Float64bits v)).
Qed.

End WriterWindow.

(** X1.  Each scalar writer returns exactly when the window of its width
    at the cursor lies inside the buffer ([0 <= p] and [p + sizeof(T) <=
    len(data)]) and panics otherwise; when it returns, the cursor has moved
    by the width, the buffer has the length it had, and every byte before
    and after the window is as it was. *)
Theorem scalar_writers_window :
  Frame.writes_window WriteBool 1
  /\ Frame.writes_window WriteUint8 1
  /\ Frame.writes_window WriteUint16 2
  /\ Frame.writes_window WriteUint32 4
  /\ Frame.writes_window WriteUint64 8
  /\ Frame.writes_window WriteFloat32 4
  /\ Frame.writes_window WriteFloat64 8.
Proof.
  split; [apply WriteBool_window|].
  split; [apply WriteUint8_window|].
  split; [apply WriteUint16_window|].
  split; [apply WriteUint32_window|].
  split; [apply WriteUint64_window|].
  split; [apply WriteFloat32_window|apply WriteFloat64_window].
Qed.

Lemma scalar_writers_window_witness :
  WriteUint32 [9; 9; 9; 9; 9; 9; 9] 2 0xDEADBEEF
  = Some ([9; 9; 0xEF; 0xBE; 0xAD; 0xDE; 9], 6)
  /\ WriteUint32 [9; 9; 9; 9; 9; 9; 9] 4 0xDEADBEEF = None
  /\ WriteUint32 [9; 9; 9; 9; 9; 9; 9] (-1) 0xDEADBEEF = None.
Proof.
  destruct scalar_writers_window as (_ & _ & _ & H32 & _).
  split; [|split].
  - destruct (H32 [9; 9; 9; 9; 9; 9; 9] 2 0xDEADBEEF) as [[_ Hs] _].
    destruct Hs as [[d p] Hw]; [vm_compute; split; discriminate|].
    rewrite Hw. vm_compute in Hw. symmetry. exact Hw.
  - destruct (H32 [9; 9; 9; 9; 9; 9; 9] 4 0xDEADBEEF) as [[Hs _] _].
    destruct (WriteUint32 [9; 9; 9; 9; 9; 9; 9] 4 0xDEADBEEF) eqn:E;
      [|reflexivity].
    destruct Hs as [_ Hs]; [eauto|]. vm_compute in Hs. destruct Hs. reflexivity.
  - destruct (H32 [9; 9; 9; 9; 9; 9; 9] (-1) 0xDEADBEEF) as [[Hs _] _].
    destruct (WriteUint32 [9; 9; 9; 9; 9; 9; 9] (-1) 0xDEADBEEF) eqn:E;
      [|reflexivity].
    destruct Hs as [Hs _]; [eauto|]. vm_compute in Hs. destruct Hs. reflexivity.
Defined.

(** ** The window of a fixed-width reader *)

Section ReaderWindow.
Import Frame.

Lemma Uint16_short b : Slice.len b < 2 -> LittleEndian.Uint16 b = None.
Proof.
  intros H. unfold LittleEndian.Uint16.
  rewrite load_None by lia. reflexivity.
Qed.

Lemma Uint32_short b : Slice.len b < 4 -> LittleEndian.Uint32 b = None.
Proof.
  intros H. unfold LittleEndian.Uint32.
  rewrite load_None by lia. reflexivity.
Qed.

Lemma Uint64_short b : Slice.len b < 8 -> LittleEndian.Uint64 b = None.
Proof.
  intros H. unfold LittleEndian.Uint64.
  rewrite load_None by lia. reflexivity.
Qed.

Lemma read_through_None {T : Type} (get : list Z -> option Z)
  (n : Z) data p (k : Z -> option T) :
  (forall b, Slice.len b < n -> get b = None) ->
  ~ (0 <= p /\ p + n <= Slice.len data) ->
  (b ← Slice.from data p; v ← get b; k v) = None.
Proof.
  intros Hget Hout.
  destruct (Slice.from data p) as [b|] eqn:Hb; [|reflexivity].
  apply from_Some_len in Hb. cbn [mbind option_bind].
  rewrite Hget by lia. reflexivity.
Qed.

Lemma reads_cells_window {T : Type} read n (dec : list Z -> T) :
  reads_cells read n dec -> reads_window read (Z.of_nat n).
Proof.
  intros [Hin Hout] data1 data2 p old Hlen Hsub.
  destruct (decide (0 <= p /\ p + Z.of_nat n <= Slice.len data1))
    as [[Hp Hcap]|Hno].
  - assert (Hcap2 : p + Z.of_nat n <= Slice.len data2) by lia.
    destruct (split_at data1 p n Hp Hcap)
      as (pre1 & mid1 & post1 & -> & Hp1 & Hm1).
    destruct (split_at data2 p n Hp Hcap2)
      as (pre2 & mid2 & post2 & -> & Hp2 & Hm2).
    rewrite <- Hp1 in Hsub at 1 2. rewrite <- Hp2 in Hsub.
    rewrite !sub_app in Hsub by (unfold Slice.len; lia).
    injection Hsub as ->.
    rewrite <- Hp1 at 1. rewrite <- Hp2.
    rewrite !Hin by trivial. rewrite Hp1, Hp2, Hlen. reflexivity.
  - rewrite !Hout by lia. rewrite Hlen. reflexivity.
Qed.

Lemma reads_cells_negative {T : Type} read n (dec : list Z -> T) :
  (n <= 8)%nat ->
  reads_cells read n dec -> negative_cursor read (Z.of_nat n).
Proof.
  intros Hn [_ Hout] data index value Hi.
  rewrite Hout by lia.
  rewrite int_add_id by (unfold is_int, min_int, max_int in *; lia).
  reflexivity.
Qed.

Ltac cells mid Hmid :=
  repeat (destruct mid as [|? mid]; [discriminate Hmid|]);
  destruct mid; [|discriminate Hmid]; cbn [app].

Ltac width :=
  repeat match goal with
    | |- context [Z.of_nat ?k] =>
        is_closed_term k;
        let z := eval vm_compute in (Z.of_nat k) in
        change (Z.of_nat k) with z
    end.

Lemma ReadBool_cells :
  reads_cells ReadBool 1
    (fun mid => if decide (nth 0 mid 0 > 0) then true else false).
Proof.
  split; width.
  - intros pre mid post old Hmid. cells mid Hmid. unfold ReadBool.
    case_decide; [reflexivity|]. rewrite load_at. reflexivity.
  - intros data p old Hout. unfold ReadBool.
    case_decide; [reflexivity|]. rewrite load_None by lia. reflexivity.
Qed.

Lemma ReadUint8_cells : reads_cells ReadUint8 1 (fun mid => nth 0 mid 0).
Proof.
  split; width.
  - intros pre mid post old Hmid. cells mid Hmid. unfold ReadUint8.
    case_decide; [reflexivity|]. rewrite load_at. reflexivity.
  - intros data p old Hout. unfold ReadUint8.
    case_decide; [reflexivity|]. rewrite load_None by lia. reflexivity.
Qed.

Lemma ReadUint16_cells :
  reads_cells ReadUint16 2
    (fun mid => default 0 (LittleEndian.Uint16 mid)).
Proof.
  split; width.
  - intros pre mid post old Hmid. cells mid Hmid. unfold ReadUint16.
    case_decide; [reflexivity|]. rewrite from_app. cbn [mbind option_bind].
    rewrite !Uint16_cons. reflexivity.
  - intros data p old Hout. unfold ReadUint16.
    case_decide; [reflexivity|].
    apply (read_through_None LittleEndian.Uint16 2); trivial.
    apply Uint16_short.
Qed.

Lemma ReadUint32_cells :
  reads_cells ReadUint32 4
    (fun mid => default 0 (LittleEndian.Uint32 mid)).
Proof.
  split; width.
  - intros pre mid post old Hmid. cells mid Hmid. unfold ReadUint32.
    case_decide; [reflexivity|]. rewrite from_app. cbn [mbind option_bind].
    rewrite !Uint32_cons. reflexivity.
  - intros data p old Hout. unfold ReadUint32.
    case_decide; [reflexivity|].
    apply (read_through_None LittleEndian.Uint32 4); trivial.
    apply Uint32_short.
Qed.

Lemma ReadUint64_cells :
  reads_cells ReadUint64 8
    (fun mid => default 0 (LittleEndian.Uint64 mid)).
Proof.
  split; width.
  - intros pre mid post old Hmid. cells mid Hmid. unfold ReadUint64.
    case_decide; [reflexivity|]. rewrite from_app. cbn [mbind option_bind].
    rewrite !Uint64_cons. reflexivity.
  - intros data p old Hout. unfold ReadUint64.
    case_decide; [reflexivity|].
    apply (read_through_None LittleEndian.Uint64 8); trivial.
    apply Uint64_short.
Qed.

Lemma ReadFloat32_cells :
  reads_cells ReadFloat32 4
    (fun mid => Float32frombits (default 0 (LittleEndian.Uint32 mid))).
Proof.
  destruct ReadUint32_cells as [Hin Hout]. split.
  - intros pre mid post old Hmid. unfold ReadFloat32.
    rewrite Hin by trivial. case_decide; reflexivity.
  - intros data p old Hno. unfold ReadFloat32.
    rewrite Hout by trivial. case_decide; reflexivity.
Qed.

Lemma ReadFloat64_cells :
  reads_cells ReadFloat64 8
    (fun mid => Float64frombits (default 0 (LittleEndian.Uint64 mid))).
Proof.
  destruct ReadUint64_cells as [Hin Hout]. split.
  - intros pre mid post old Hmid. unfold ReadFloat64.
    rewrite Hin by trivial. case_decide; reflexivity.
  - intros data p old Hno. unfold ReadFloat64.
    rewrite Hout by trivial. case_decide; reflexivity.
Qed.

End ReaderWindow.

Section ReaderCursor.
Import Frame.

Lemma reads_cells_overflow {T : Type} read n (dec : list Z -> T) :
  (0 < n <= 8)%nat ->
  reads_cells read n dec -> overflowing_cursor read (Z.of_nat n).
Proof.
  intros Hn [_ Hout] data index value Hi Hlen.
  unfold max_int in *.
  rewrite Hout by lia.
  rewrite decide_False; [reflexivity|].
  unfold int_add, to_int.
  replace (index + Z.of_nat n + 2 ^ 63)
    with (index + Z.of_nat n - 2 ^ 63 + 1 * 2 ^ 64) by lia.
  rewrite Z_mod_plus_full, Z.mod_small by lia.
  pose proof (len_nonneg data). lia.
Qed.

End ReaderCursor.

(** X2.  Each fixed-width reader looks at nothing but the window of its
    width at the cursor: on two buffers of the same length whose bytes
    [[p, p + sizeof(T))] are the same (or that both lack them) it returns the
    same boolean, cursor and value. *)
Theorem fixed_width_readers_window :
  Frame.reads_window ReadBool 1
  /\ Frame.reads_window ReadUint8 1
  /\ Frame.reads_window ReadUint16 2
  /\ Frame.reads_window ReadUint32 4
  /\ Frame.reads_window ReadUint64 8
  /\ Frame.reads_window ReadFloat32 4
  /\ Frame.reads_window ReadFloat64 8.
Proof.
  split; [apply (reads_cells_window _ 1 _ ReadBool_cells)|].
  split; [apply (reads_cells_window _ 1 _ ReadUint8_cells)|].
  split; [apply (reads_cells_window _ 2 _ ReadUint16_cells)|].
  split; [apply (reads_cells_window _ 4 _ ReadUint32_cells)|].
  split; [apply (reads_cells_window _ 8 _ ReadUint64_cells)|].
  split; [apply (reads_cells_window _ 4 _ ReadFloat32_cells)|].
  apply (reads_cells_window _ 8 _ ReadFloat64_cells).
Qed.

Lemma fixed_width_readers_window_witness :
  ReadUint16 [1; 0x40; 0x9C; 7] 1 0 = ReadUint16 [200; 0x40; 0x9C; 0] 1 0.
Proof.
  destruct fixed_width_readers_window as (_ & _ & H16 & _).
  apply H16; reflexivity.
Defined.

(** X3.  The bound test [*index + sizeof(T) > len(data)] of the
    fixed-width readers does not catch a bad cursor.  With a negative
    cursor a reader returns [false] (cursor and output untouched) when the
    test fires and panics on the index expression otherwise, so it never
    succeeds; with a cursor so close to the largest [int] that the sum
    wraps around, it panics. *)
Theorem fixed_width_readers_bad_cursor :
  (Frame.negative_cursor ReadBool 1 /\ Frame.overflowing_cursor ReadBool 1)
  /\ (Frame.negative_cursor ReadUint8 1
      /\ Frame.overflowing_cursor ReadUint8 1)
  /\ (Frame.negative_cursor ReadUint16 2
      /\ Frame.overflowing_cursor ReadUint16 2)
  /\ (Frame.negative_cursor ReadUint32 4
      /\ Frame.overflowing_cursor ReadUint32 4)
  /\ (Frame.negative_cursor ReadUint64 8
      /\ Frame.overflowing_cursor ReadUint64 8)
  /\ (Frame.negative_cursor ReadFloat32 4
      /\ Frame.overflowing_cursor ReadFloat32 4)
  /\ (Frame.negative_cursor ReadFloat64 8
      /\ Frame.overflowing_cursor ReadFloat64 8).
Proof.
  repeat match goal with |- _ /\ _ => split end.
  all: first
         [ apply (reads_cells_negative _ 1 _ ltac:(lia) ReadBool_cells)
         | apply (reads_cells_overflow _ 1 _ ltac:(lia) ReadBool_cells)
         | apply (reads_cells_negative _ 1 _ ltac:(lia) ReadUint8_cells)
         | apply (reads_cells_overflow _ 1 _ ltac:(lia) ReadUint8_cells)
         | apply (reads_cells_negative _ 2 _ ltac:(lia) ReadUint16_cells)
         | apply (reads_cells_overflow _ 2 _ ltac:(lia) ReadUint16_cells)
         | apply (reads_cells_negative _ 4 _ ltac:(lia) ReadUint32_cells)
         | apply (reads_cells_overflow _ 4 _ ltac:(lia) ReadUint32_cells)
         | apply (reads_cells_negative _ 8 _ ltac:(lia) ReadUint64_cells)
         | apply (reads_cells_overflow _ 8 _ ltac:(lia) ReadUint64_cells)
         | apply (reads_cells_negative _ 4 _ ltac:(lia) ReadFloat32_cells)
         | apply (reads_cells_overflow _ 4 _ ltac:(lia) ReadFloat32_cells)
         | apply (reads_cells_negative _ 8 _ ltac:(lia) ReadFloat64_cells)
         | apply (reads_cells_overflow _ 8 _ ltac:(lia) ReadFloat64_cells) ].
Qed.

Lemma fixed_width_readers_bad_cursor_witness :
  ReadUint32 [1; 2; 3; 4; 5] (-1) 7 = None
  /\ ReadUint32 [1; 2] (-1) 7 = Some (ReadResult false (-1) 7)
  /\ ReadUint32 [1; 2; 3; 4; 5] max_int 7 = None.
Proof.
  destruct fixed_width_readers_bad_cursor as (_ & _ & _ & [Hn Ho] & _).
  split; [|split].
  - rewrite Hn by (vm_compute; split; [discriminate|reflexivity]).
    reflexivity.
  - rewrite Hn by (vm_compute; split; [discriminate|reflexivity]).
    reflexivity.
  - apply Ho; vm_compute; try split; discriminate || reflexivity.
Defined.

(** ** Strings and byte blocks *)

Section BlockLoops.

Ltac int_ok :=
  unfold is_int, min_int, max_int in *; len_facts; lia.

(** The write loop copies the bytes of [value] it is asked for. *)
Lemma write_loop_spec rest done tail pre mid post :
  length mid = length rest ->
  Slice.len (done ++ rest ++ tail) <= max_int ->
  Slice.len (pre ++ mid ++ post) <= max_int ->
  write_loop (done ++ rest ++ tail) (length rest) (Slice.len done)
    (pre ++ mid ++ post) (Slice.len pre)
  = Some (pre ++ rest ++ post, Slice.len pre + Slice.len rest).
Proof.
  revert done pre mid.
  induction rest as [|c rest IH]; intros done pre mid Hmid Hv Hd.
  - destruct mid; [|discriminate Hmid]. cbn [write_loop length app].
    change (Slice.len []) with 0. rewrite Z.add_0_r. reflexivity.
  - destruct mid as [|m mid]; [discriminate Hmid|].
    injection Hmid as Hmid. cbn [write_loop length app].
    rewrite load_at. cbn [mbind option_bind].
    rewrite store_at. cbn [mbind option_bind].
    rewrite !int_add_id by int_ok.
    replace (Slice.len done + 1) with (Slice.len (done ++ [c]))
      by (rewrite len_app; reflexivity).
    replace (Slice.len pre + 1) with (Slice.len (pre ++ [c]))
      by (rewrite len_app; reflexivity).
    replace (done ++ c :: rest ++ tail) with ((done ++ [c]) ++ rest ++ tail)
      in * by (rewrite <- app_assoc; reflexivity).
    replace (pre ++ c :: mid ++ post) with ((pre ++ [c]) ++ mid ++ post)
      by (rewrite <- app_assoc; reflexivity).
    rewrite (IH (done ++ [c]) (pre ++ [c]) mid Hmid).
    + rewrite <- !app_assoc, !len_app, !len_cons.
      change (Slice.len []) with 0. cbn [app].
      apply f_equal, (f_equal2 pair); [reflexivity|lia].
    + rewrite <- app_assoc. exact Hv.
    + revert Hd. rewrite !len_app, !len_cons. change (Slice.len []) with 0.
      lia.
Qed.

(** The read loop fills the fresh slice with the bytes at the cursor. *)
Lemma read_loop_spec src pre post ddone dmid :
  length dmid = length src ->
  Slice.len (pre ++ src ++ post) <= max_int ->
  Slice.len ddone + Slice.len src < 2 ^ 32 ->
  read_loop (pre ++ src ++ post) (length src) (Slice.len ddone)
    (ddone ++ dmid) (Slice.len pre)
  = Some (ddone ++ src, Slice.len pre + Slice.len src).
Proof.
  revert pre ddone dmid.
  induction src as [|c src IH]; intros pre ddone dmid Hmid Hd Hn.
  - destruct dmid; [|discriminate Hmid]. cbn [read_loop length app].
    change (Slice.len []) with 0. rewrite Z.add_0_r. reflexivity.
  - destruct dmid as [|m dmid]; [discriminate Hmid|].
    injection Hmid as Hmid. cbn [read_loop length app].
    rewrite load_at. cbn [mbind option_bind].
    rewrite store_at. cbn [mbind option_bind].
    rewrite int_add_id by int_ok.
    rewrite len_cons in Hn. pose proof (len_nonneg ddone).
    pose proof (len_nonneg src).
    unfold to_uint32. rewrite Z.mod_small by lia.
    replace (Slice.len ddone + 1) with (Slice.len (ddone ++ [c]))
      by (rewrite len_app; reflexivity).
    replace (Slice.len pre + 1) with (Slice.len (pre ++ [c]))
      by (rewrite len_app; reflexivity).
    replace (pre ++ c :: src ++ post) with ((pre ++ [c]) ++ src ++ post)
      in * by (rewrite <- app_assoc; reflexivity).
    replace (ddone ++ c :: dmid) with ((ddone ++ [c]) ++ dmid)
      by (rewrite <- app_assoc; reflexivity).
    rewrite (IH (pre ++ [c]) (ddone ++ [c]) dmid Hmid).
    + rewrite <- !app_assoc, !len_app, !len_cons.
      change (Slice.len []) with 0. cbn [app].
      apply f_equal, (f_equal2 pair); [reflexivity|lia].
    + rewrite <- app_assoc. exact Hd.
    + rewrite len_app. change (Slice.len [c]) with 1. lia.
Qed.

Lemma make_length n : 0 <= n -> length (Slice.make n) = Z.to_nat n.
Proof. intros H. unfold Slice.make. apply length_replicate. Qed.

End BlockLoops.

Section BlockRoundTrip.

Ltac int_ok :=
  unfold is_int, min_int, max_int in *;
  repeat (progress rewrite ?len_app, ?len_cons in * );
  len_facts; lia.

(** [WriteString] on a buffer split at the cursor. *)
Lemma WriteString_at pre x0 x1 x2 x3 mid post value maxStringLength :
  length mid = length value ->
  Slice.len value <= maxStringLength -> maxStringLength < 2 ^ 32 ->
  Slice.len (pre ++ x0 :: x1 :: x2 :: x3 :: mid ++ post) <= max_int ->
  WriteString (pre ++ x0 :: x1 :: x2 :: x3 :: mid ++ post) (Slice.len pre)
    value maxStringLength
  = Some (pre ++ Wire.le_bytes 4 (Slice.len value) ++ value ++ post,
          Slice.len pre + 4 + Slice.len value).
Proof.
  intros Hmid Hmax Hm32 Hlen. pose proof (len_nonneg value).
  unfold WriteString. cbv zeta.
  unfold to_uint32. rewrite Z.mod_small by lia.
  rewrite decide_False by lia.
  rewrite from_app. cbn [mbind option_bind].
  rewrite PutUint32_cons. cbn [mbind option_bind].
  rewrite rejoin_app, int_add_id by int_ok.
  rewrite to_int_id by int_ok.
  replace (Z.to_nat (Slice.len value)) with (length value)
    by (unfold Slice.len; lia).
  rewrite <- le_bytes_4. cbn [app].
  set (b0 := to_byte (Slice.len value)).
  set (b1 := to_byte (Z.shiftr (Slice.len value) 8)).
  set (b2 := to_byte (Z.shiftr (Slice.len value) 16)).
  set (b3 := to_byte (Z.shiftr (Slice.len value) 24)).
  pose proof (write_loop_spec value [] [] (pre ++ [b0; b1; b2; b3]) mid
                post Hmid) as Hw.
  rewrite app_nil_r in Hw. cbn [app] in Hw.
  rewrite !len_app in Hw. change (Slice.len [b0; b1; b2; b3]) with 4 in Hw.
  change (Slice.len []) with 0 in Hw.
  rewrite <- !app_assoc in Hw. cbn [app] in Hw.
  apply Hw; [unfold max_int; lia|].
  revert Hlen. rewrite !len_app, !len_cons, !len_app. lia.
Qed.

Lemma Uint32_of_le_bytes n :
  is_uint32 n -> forall rest,
  LittleEndian.Uint32 (Wire.le_bytes 4 n ++ rest) = Some n.
Proof.
  intros Hn rest. rewrite <- le_bytes_4. cbn [app].
  rewrite Uint32_cons, Uint32_of_bytes by trivial. reflexivity.
Qed.

(** [ReadString] on a buffer that holds a length prefix and that many
    bytes at the cursor. *)
Lemma ReadString_at pre value post old maxStringLength :
  Slice.len value <= maxStringLength -> maxStringLength < 2 ^ 32 ->
  Slice.len (pre ++ Wire.le_bytes 4 (Slice.len value) ++ value ++ post)
    <= max_int ->
  ReadString (pre ++ Wire.le_bytes 4 (Slice.len value) ++ value ++ post)
    (Slice.len pre) old maxStringLength
  = Some (ReadResult true (Slice.len pre + 4 + Slice.len value) value).
Proof.
  intros Hmax Hm32 Hlen. pose proof (len_nonneg value).
  assert (Hn : is_uint32 (Slice.len value)) by (unfold is_uint32; lia).
  revert Hlen. rewrite <- le_bytes_4. cbn [app]. intros Hlen.
  unfold ReadString. rewrite ReadUint32_at by trivial.
  cbn [mbind option_bind rok rindex rvalue negb].
  rewrite Uint32_of_bytes by trivial.
  rewrite decide_False by lia.
  rewrite to_int_id by int_ok.
  rewrite int_add_id by int_ok.
  rewrite decide_False by int_ok.
  set (b0 := to_byte (Slice.len value)) in *.
  set (b1 := to_byte (Z.shiftr (Slice.len value) 8)) in *.
  set (b2 := to_byte (Z.shiftr (Slice.len value) 16)) in *.
  set (b3 := to_byte (Z.shiftr (Slice.len value) 24)) in *.
  pose proof (read_loop_spec value (pre ++ [b0; b1; b2; b3]) post []
                (Slice.make (Slice.len value))) as Hr.
  rewrite !len_app in Hr. change (Slice.len [b0; b1; b2; b3]) with 4 in Hr.
  change (Slice.len []) with 0 in Hr.
  rewrite <- !app_assoc in Hr. cbn [app] in Hr.
  replace (Z.to_nat (Slice.len value)) with (length value)
    by (unfold Slice.len; lia).
  rewrite Hr.
  - reflexivity.
  - rewrite make_length by lia. unfold Slice.len. lia.
  - revert Hlen. rewrite !len_app, !len_cons, !len_app. lia.
  - lia.
Qed.

End BlockRoundTrip.

(** X4.  A string of at most [maxStringLength] bytes, written by
    [WriteString] at a cursor with room for the 4-byte length prefix and the
    bytes, is read back by [ReadString] with the same maximum: the write
    moves the cursor by [4 + len(value)], puts there the little-endian
    length followed by the bytes and leaves every other byte of the buffer
    as it was; the read succeeds with the string and the same cursor. *)
Theorem string_round_trip (data : list Z) (p : Z) (value old : list Z)
  (maxStringLength : Z) :
  0 <= p ->
  Slice.len value <= maxStringLength ->
  maxStringLength < 2 ^ 32 ->
  p + 4 + Slice.len value <= Slice.len data ->
  Slice.len data <= max_int ->
  exists data',
    WriteString data p value maxStringLength
    = Some (data', p + 4 + Slice.len value)
    /\ Slice.len data' = Slice.len data
    /\ take (Z.to_nat p) data' = take (Z.to_nat p) data
    /\ drop (Z.to_nat (p + 4 + Slice.len value)) data'
       = drop (Z.to_nat (p + 4 + Slice.len value)) data
    /\ Slice.sub data' p (p + 4 + Slice.len value)
       = Some (Wire.le_bytes 4 (Slice.len value) ++ value)
    /\ ReadString data' p old maxStringLength
       = Some (ReadResult true (p + 4 + Slice.len value) value).
Proof.
  intros Hp Hmax Hm32 Hcap Hlen.
  destruct (split_at data p (4 + length value) Hp) as
    (pre & mid & post & -> & <- & Hmid).
  { unfold Slice.len in *. lia. }
  do 4 (destruct mid as [|? mid]; [discriminate Hmid|]).
  injection Hmid as Hmid. cbn [app] in *.
  exists (pre ++ Wire.le_bytes 4 (Slice.len value) ++ value ++ post).
  split; [apply WriteString_at; trivial|].
  assert (Hsame : Slice.len
                    (pre ++ Wire.le_bytes 4 (Slice.len value) ++ value ++ post)
                  = Slice.len (pre ++ z :: z0 :: z1 :: z2 :: mid ++ post)).
  { rewrite !len_app, !len_cons, !len_app.
    change (Slice.len (Wire.le_bytes 4 _)) with 4.
    unfold Slice.len. lia. }
  split; [exact Hsame|].
  split; [unfold Slice.len; rewrite Nat2Z.id, !take_app_length; reflexivity|].
  split.
  - replace (Z.to_nat (Slice.len pre + 4 + Slice.len value))
      with (length pre + (4 + length value))%nat by (unfold Slice.len; lia).
    rewrite <- !(drop_drop _ (4 + length value) (length pre)).
    rewrite !drop_app_length.
    rewrite <- !(drop_drop _ (length value) 4).
    cbn [drop Wire.le_bytes app]. rewrite !drop_0.
    rewrite drop_app_length. rewrite <- Hmid. rewrite drop_app_length.
    reflexivity.
  - split.
    + rewrite (app_assoc (Wire.le_bytes 4 _)), <- Z.add_assoc.
      apply sub_app. rewrite len_app. reflexivity.
    + apply ReadString_at; trivial. rewrite Hsame. exact Hlen.
Qed.

Lemma string_round_trip_witness :
  WriteString [9; 9; 9; 9; 9; 9; 9; 9; 9] 1 [104; 105] 16
  = Some ([9; 2; 0; 0; 0; 104; 105; 9; 9], 7)
  /\ ReadString [9; 2; 0; 0; 0; 104; 105; 9; 9] 1 [] 16
     = Some (ReadResult true 7 [104; 105]).
Proof.
  destruct (string_round_trip [9; 9; 9; 9; 9; 9; 9; 9; 9] 1 [104; 105] [] 16)
    as (data' & Hw & _ & _ & _ & _ & Hr);
    try (vm_compute; discriminate || reflexivity).
  assert (Hd : data' = [9; 2; 0; 0; 0; 104; 105; 9; 9]).
  { vm_compute in Hw. injection Hw as <-. reflexivity. }
  subst data'. split; [exact Hw|exact Hr].
Defined.

Section DecodedRanges.

Lemma Uint16_range b0 b1 :
  is_byte b0 -> is_byte b1 ->
  Z.lor b0 (LittleEndian.shl16 b1 8) = b0 + b1 * 2 ^ 8.
Proof.
  intros H0 H1. unfold LittleEndian.shl16, to_uint16.
  rewrite (lor_byte_at 16) by (trivial; unfold is_byte in *; lia).
  reflexivity.
Qed.

Lemma Uint32_range b0 b1 b2 b3 :
  is_byte b0 -> is_byte b1 -> is_byte b2 -> is_byte b3 ->
  Z.lor (Z.lor (Z.lor b0 (LittleEndian.shl32 b1 8))
           (LittleEndian.shl32 b2 16)) (LittleEndian.shl32 b3 24)
  = b0 + b1 * 2 ^ 8 + b2 * 2 ^ 16 + b3 * 2 ^ 24.
Proof.
  intros H0 H1 H2 H3. unfold LittleEndian.shl32, to_uint32.
  rewrite (lor_byte_at 32 _ _ 8) by (trivial; unfold is_byte in *; lia).
  rewrite (lor_byte_at 32 _ _ 16) by (trivial; unfold is_byte in *; lia).
  rewrite (lor_byte_at 32 _ _ 24) by (trivial; unfold is_byte in *; lia).
  reflexivity.
Qed.

Lemma Uint64_range b0 b1 b2 b3 b4 b5 b6 b7 :
  is_byte b0 -> is_byte b1 -> is_byte b2 -> is_byte b3 ->
  is_byte b4 -> is_byte b5 -> is_byte b6 -> is_byte b7 ->
  Z.lor (Z.lor (Z.lor (Z.lor (Z.lor (Z.lor (Z.lor
    b0 (LittleEndian.shl64 b1 8)) (LittleEndian.shl64 b2 16))
    (LittleEndian.shl64 b3 24)) (LittleEndian.shl64 b4 32))
    (LittleEndian.shl64 b5 40)) (LittleEndian.shl64 b6 48))
    (LittleEndian.shl64 b7 56)
  = b0 + b1 * 2 ^ 8 + b2 * 2 ^ 16 + b3 * 2 ^ 24 + b4 * 2 ^ 32
    + b5 * 2 ^ 40 + b6 * 2 ^ 48 + b7 * 2 ^ 56.
Proof.
  intros H0 H1 H2 H3 H4 H5 H6 H7. unfold LittleEndian.shl64, to_uint64.
  rewrite (lor_byte_at 64 _ _ 8) by (trivial; unfold is_byte in *; lia).
  rewrite (lor_byte_at 64 _ _ 16) by (trivial; unfold is_byte in *; lia).
  rewrite (lor_byte_at 64 _ _ 24) by (trivial; unfold is_byte in *; lia).
  rewrite (lor_byte_at 64 _ _ 32) by (trivial; unfold is_byte in *; lia).
  rewrite (lor_byte_at 64 _ _ 40) by (trivial; unfold is_byte in *; lia).
  rewrite (lor_byte_at 64 _ _ 48) by (trivial; unfold is_byte in *; lia).
  rewrite (lor_byte_at 64 _ _ 56) by (trivial; unfold is_byte in *; lia).
  reflexivity.
Qed.

(** A buffer of bytes split at a window of [n] cells. *)
Lemma split_bytes (data : list Z) p (n : nat) :
  Forall is_byte data -> 0 <= p -> p + Z.of_nat n <= Slice.len data ->
  exists pre mid post,
    data = pre ++ mid ++ post /\ Slice.len pre = p /\ length mid = n
    /\ Forall is_byte mid.
Proof.
  intros Hb Hp Hcap.
  destruct (split_at data p n Hp Hcap) as (pre & mid & post & -> & ? & ?).
  exists pre, mid, post. repeat split; trivial.
  apply Forall_app in Hb as [_ Hb]. apply Forall_app in Hb as [Hb _].
  exact Hb.
Qed.

End DecodedRanges.

(** X5.  [ReadString] enforces its bounds on the declared length: on a
    buffer of bytes whose length prefix at the cursor can be read, when the
    declared length exceeds [maxStringLength] or the bytes that remain after
    the prefix, [ReadString] returns [false] (it does not panic and copies
    nothing), with the output untouched and the cursor behind the prefix. *)
Theorem ReadString_bound_enforced (data : list Z) (p : Z) (old : list Z)
  (maxStringLength n : Z) :
  Forall is_byte data ->
  0 <= p ->
  Slice.len data + 2 ^ 32 <= max_int ->
  ReadUint32 data p 0 = Some (ReadResult true (p + 4) n) ->
  n > maxStringLength \/ p + 4 + n > Slice.len data ->
  ReadString data p old maxStringLength = Some (ReadResult false (p + 4) old).
Proof.
  intros Hb Hp Hlen Hn Hbad. pose proof (len_nonneg data).
  assert (Hcap : p + 4 <= Slice.len data).
  { revert Hn. unfold ReadUint32. case_decide; [discriminate|].
    destruct (Slice.from data p) as [b|] eqn:Hfrom; [|discriminate].
    apply from_Some_len in Hfrom. cbn [mbind option_bind].
    destruct (decide (Slice.len b < 4)) as [Hs|Hs]; [|lia].
    rewrite (Uint32_short b Hs). discriminate. }
  assert (H32 : is_uint32 n).
  { destruct (split_bytes data p 4 Hb Hp Hcap)
      as (pre & mid & post & -> & <- & Hmid & Hm).
    do 4 (destruct mid as [|? mid]; [discriminate Hmid|]).
    destruct mid; [|discriminate Hmid]. cbn [app] in *.
    rewrite ReadUint32_at in Hn by (unfold max_int in *; lia).
    injection Hn as <-.
    repeat match goal with
      | H : Forall _ (_ :: _) |- _ => inversion_clear H
      end.
    rewrite Uint32_range by trivial.
    unfold is_byte, is_uint32 in *. lia. }
  unfold ReadString. rewrite Hn.
  cbn [mbind option_bind rok rindex rvalue negb].
  case_decide; [reflexivity|].
  unfold is_uint32 in H32.
  rewrite to_int_id by (unfold is_int, min_int, max_int in *; lia).
  rewrite int_add_id by (unfold is_int, min_int, max_int in *; lia).
  rewrite decide_True by lia. reflexivity.
Qed.

Lemma ReadString_bound_enforced_witness :
  ReadString [5; 0; 0; 0; 97] 0 [1; 2] 4 = Some (ReadResult false 4 [1; 2])
  /\ ReadString [0; 5; 0; 0; 0; 97] 1 [] 16 = Some (ReadResult false 5 []).
Proof.
  split.
  - apply (ReadString_bound_enforced [5; 0; 0; 0; 97] 0 [1; 2] 4 5).
    + repeat constructor; vm_compute; discriminate.
    + lia.
    + vm_compute. discriminate.
    + reflexivity.
    + left. lia.
  - apply (ReadString_bound_enforced [0; 5; 0; 0; 0; 97] 1 [] 16 5).
    + repeat constructor; vm_compute; discriminate.
    + lia.
    + vm_compute. discriminate.
    + reflexivity.
    + right. vm_compute. reflexivity.
Defined.

Section ByteBlocks.

Ltac int_ok :=
  unfold is_int, min_int, max_int in *;
  repeat (progress rewrite ?len_app, ?len_cons in * );
  len_facts; lia.

(** Asked for more bytes than [value] has, the write loop panics. *)
Lemma write_loop_overrun value n i data index :
  0 <= i -> Slice.len value < max_int ->
  (0 < n)%nat -> i + Z.of_nat n > Slice.len value ->
  write_loop value n i data index = None.
Proof.
  revert i data index.
  induction n as [|n IH]; intros i data index Hi Hv Hn Hover; [lia|].
  cbn [write_loop].
  destruct (Slice.load value i) as [c|] eqn:Hc; [|reflexivity].
  apply load_Some_len in Hc. cbn [mbind option_bind].
  destruct (Slice.store data index c) as [d|]; [|reflexivity].
  cbn [mbind option_bind].
  rewrite (int_add_id i) by (unfold is_int, min_int, max_int in *; lia).
  apply IH; lia.
Qed.

End ByteBlocks.



(** X7.  [WriteBytes] trusts [numBytes]: asked for more bytes than [value]
    holds it always panics, whatever the buffer and the cursor (on the
    buffer when it is too short, on [value[i]] otherwise); asked for none
    ([numBytes <= 0]) it returns with buffer and cursor as they were. *)
Theorem WriteBytes_trusts_count (data : list Z) (p : Z) (value : list Z)
  (numBytes : Z) :
  Slice.len value < max_int ->
  (numBytes > Slice.len value -> WriteBytes data p value numBytes = None)
  /\ (numBytes <= 0 -> WriteBytes data p value numBytes = Some (data, p)).
Proof.
  intros Hv. pose proof (len_nonneg value). unfold WriteBytes. split.
  - intros Hn. apply write_loop_overrun; lia.
  - intros Hn. replace (Z.to_nat numBytes) with 0%nat by lia. reflexivity.
Qed.

Lemma WriteBytes_trusts_count_witness :
  WriteBytes [9; 9; 9; 9; 9] 0 [1; 2] 3 = None
  /\ WriteBytes [9; 9; 9; 9; 9] 0 [1; 2] (-1) = Some ([9; 9; 9; 9; 9], 0).
Proof.
  destruct (WriteBytes_trusts_count [9; 9; 9; 9; 9] 0 [1; 2] 3) as [H _];
    [vm_compute; reflexivity|].
  destruct (WriteBytes_trusts_count [9; 9; 9; 9; 9] 0 [1; 2] (-1)) as [_ H'];
    [vm_compute; reflexivity|].
  split; [apply H; vm_compute; reflexivity|apply H'; vm_compute; discriminate].
Defined.

(** ** Reading, then writing back *)

Section Reencode.

Ltac cells mid Hmid :=
  repeat (destruct mid as [|? mid]; [discriminate Hmid|]);
  destruct mid; [|discriminate Hmid]; cbn [app] in *.

Ltac bytes_of H :=
  repeat match goal with
    | H : Forall _ (_ :: _) |- _ => inversion_clear H
    end.

Ltac byte_back :=
  unfold to_byte, is_byte in *; rewrite ?Z.shiftr_div_pow2 by lia;
  Z.div_mod_to_equations; lia.

Variables (data : list Z) (p : Z).
Hypothesis Hbytes : Forall is_byte data.
Hypothesis Hp : 0 <= p.
Hypothesis Hlen : Slice.len data <= max_int.

Lemma reencode_uint8 old :
  p + 1 <= Slice.len data ->
  exists v, ReadUint8 data p old = Some (ReadResult true (p + 1) v)
            /\ is_byte v
            /\ WriteUint8 data p v = Some (data, p + 1).
Proof.
  intros Hcap.
  destruct (split_bytes data p 1 Hbytes Hp Hcap)
    as (pre & mid & post & Hd & Hpre & Hmid & Hm).
  subst data p. cells mid Hmid. bytes_of Hm.
  eexists. rewrite ReadUint8_at by trivial. split; [reflexivity|].
  split; [trivial|]. rewrite WriteUint8_at by trivial.
  rewrite to_byte_id by trivial. reflexivity.
Qed.

Lemma reencode_uint16 old :
  p + 2 <= Slice.len data ->
  exists v, ReadUint16 data p old = Some (ReadResult true (p + 2) v)
            /\ is_uint16 v
            /\ WriteUint16 data p v = Some (data, p + 2).
Proof.
  intros Hcap.
  destruct (split_bytes data p 2 Hbytes Hp Hcap)
    as (pre & mid & post & Hd & Hpre & Hmid & Hm).
  subst data p. cells mid Hmid. bytes_of Hm.
  eexists. rewrite ReadUint16_at by trivial. split; [reflexivity|].
  rewrite Uint16_range by trivial.
  split; [unfold is_uint16, is_byte in *; lia|].
  rewrite WriteUint16_at by trivial.
  match goal with
  | |- Some (_ ++ ?a :: ?b :: _, _) = Some (_ ++ ?x :: ?y :: _, _) =>
      replace a with x by byte_back; replace b with y by byte_back
  end.
  reflexivity.
Qed.

Lemma reencode_uint32 old :
  p + 4 <= Slice.len data ->
  exists v, ReadUint32 data p old = Some (ReadResult true (p + 4) v)
            /\ is_uint32 v
            /\ WriteUint32 data p v = Some (data, p + 4).
Proof.
  intros Hcap.
  destruct (split_bytes data p 4 Hbytes Hp Hcap)
    as (pre & mid & post & Hd & Hpre & Hmid & Hm).
  subst data p. cells mid Hmid. bytes_of Hm.
  eexists. rewrite ReadUint32_at by trivial. split; [reflexivity|].
  rewrite Uint32_range by trivial.
  split; [unfold is_uint32, is_byte in *; lia|].
  rewrite WriteUint32_at by trivial.
  match goal with
  | |- Some (_ ++ ?a :: ?b :: ?c :: ?d :: _, _)
       = Some (_ ++ ?x :: ?y :: ?z :: ?w :: _, _) =>
      replace a with x by byte_back; replace b with y by byte_back;
      replace c with z by byte_back; replace d with w by byte_back
  end.
  reflexivity.
Qed.

Lemma reencode_uint64 old :
  p + 8 <= Slice.len data ->
  exists v, ReadUint64 data p old = Some (ReadResult true (p + 8) v)
            /\ is_uint64 v
            /\ WriteUint64 data p v = Some (data, p + 8).
Proof.
  intros Hcap.
  destruct (split_bytes data p 8 Hbytes Hp Hcap)
    as (pre & mid & post & Hd & Hpre & Hmid & Hm).
  subst data p. cells mid Hmid. bytes_of Hm.
  eexists. rewrite ReadUint64_at by trivial. split; [reflexivity|].
  rewrite Uint64_range by trivial.
  split; [unfold is_uint64, is_byte in *; lia|].
  rewrite WriteUint64_at by trivial.
  match goal with
  | |- Some (_ ++ ?a0 :: ?a1 :: ?a2 :: ?a3 :: ?a4 :: ?a5 :: ?a6 :: ?a7
               :: _, _)
       = Some (_ ++ ?x0 :: ?x1 :: ?x2 :: ?x3 :: ?x4 :: ?x5 :: ?x6 :: ?x7
                 :: _, _) =>
      replace a0 with x0 by byte_back; replace a1 with x1 by byte_back;
      replace a2 with x2 by byte_back; replace a3 with x3 by byte_back;
      replace a4 with x4 by byte_back; replace a5 with x5 by byte_back;
      replace a6 with x6 by byte_back; replace a7 with x7 by byte_back
  end.
  reflexivity.
Qed.

(** A boolean is read from any byte, and written back as 0 or 1. *)
Lemma reencode_bool old :
  p + 1 <= Slice.len data ->
  exists c, Slice.load data p = Some c
            /\ ReadBool data p old
               = Some (ReadResult true (p + 1) (bool_decide (c <> 0)))
            /\ WriteBool data p (bool_decide (c <> 0))
               = Some (<[Z.to_nat p := if bool_decide (c <> 0) then 1 else 0]>
                         data, p + 1).
Proof.
  intros Hcap.
  destruct (split_bytes data p 1 Hbytes Hp Hcap)
    as (pre & mid & post & Hd & Hpre & Hmid & Hm).
  subst data p. cells mid Hmid. bytes_of Hm.
  exists z. rewrite load_at, ReadBool_at, WriteBool_at by trivial.
  split; [reflexivity|]. split.
  - do 2 f_equal. unfold is_byte in *.
    case_decide; case_bool_decide; trivial; lia.
  - do 2 f_equal. unfold Slice.len. rewrite Nat2Z.id.
    rewrite insert_app_r_alt, Nat.sub_diag by lia. reflexivity.
Qed.

End Reencode.

(** X8.  On a buffer of bytes, what a fixed-width integer reader returns
    is a value of its type, and writing that value back at the same cursor
    gives the buffer that was read: decoding followed by encoding changes
    nothing.  A boolean is read as [true] from every nonzero byte, and
    writing it back puts 1 there: only the bytes 0 and 1 survive. *)
Theorem read_then_write_back (data : list Z) (p : Z) :
  Forall is_byte data ->
  0 <= p ->
  Slice.len data <= max_int ->
  (forall old, p + 1 <= Slice.len data ->
     exists v, ReadUint8 data p old = Some (ReadResult true (p + 1) v)
               /\ is_byte v /\ WriteUint8 data p v = Some (data, p + 1))
  /\ (forall old, p + 2 <= Slice.len data ->
        exists v, ReadUint16 data p old = Some (ReadResult true (p + 2) v)
                  /\ is_uint16 v /\ WriteUint16 data p v = Some (data, p + 2))
  /\ (forall old, p + 4 <= Slice.len data ->
        exists v, ReadUint32 data p old = Some (ReadResult true (p + 4) v)
                  /\ is_uint32 v /\ WriteUint32 data p v = Some (data, p + 4))
  /\ (forall old, p + 8 <= Slice.len data ->
        exists v, ReadUint64 data p old = Some (ReadResult true (p + 8) v)
                  /\ is_uint64 v /\ WriteUint64 data p v = Some (data, p + 8))
  /\ (forall old, p + 1 <= Slice.len data ->
        exists c, Slice.load data p = Some c
                  /\ ReadBool data p old
                     = Some (ReadResult true (p + 1) (bool_decide (c <> 0)))
                  /\ WriteBool data p (bool_decide (c <> 0))
                     = Some (<[Z.to_nat p :=
                                 if bool_decide (c <> 0) then 1 else 0]> data,
                             p + 1)).
Proof.
  intros Hb Hp Hlen.
  split; [intros old; apply reencode_uint8; trivial|].
  split; [intros old; apply reencode_uint16; trivial|].
  split; [intros old; apply reencode_uint32; trivial|].
  split; [intros old; apply reencode_uint64; trivial|].
  intros old. apply reencode_bool; trivial.
Qed.

Lemma read_then_write_back_witness :
  (exists v, ReadUint32 [7; 0xEF; 0xBE; 0xAD; 0xDE; 7] 1 0
             = Some (ReadResult true 5 v)
             /\ WriteUint32 [7; 0xEF; 0xBE; 0xAD; 0xDE; 7] 1 v
                = Some ([7; 0xEF; 0xBE; 0xAD; 0xDE; 7], 5))
  /\ ReadBool [7; 0xEF; 0xBE; 0xAD; 0xDE; 7] 0 false
     = Some (ReadResult true 1 true)
  /\ WriteBool [7; 0xEF; 0xBE; 0xAD; 0xDE; 7] 0 true
     = Some ([1; 0xEF; 0xBE; 0xAD; 0xDE; 7], 1).
Proof.
  assert (Hb : Forall is_byte [7; 0xEF; 0xBE; 0xAD; 0xDE; 7])
    by (repeat constructor; vm_compute; discriminate).
  split.
  - destruct (read_then_write_back [7; 0xEF; 0xBE; 0xAD; 0xDE; 7] 1 Hb)
      as (_ & _ & H32 & _); [lia|vm_compute; discriminate|].
    destruct (H32 0) as (v & Hr & _ & Hw); [vm_compute; discriminate|].
    exists v. split; [exact Hr|exact Hw].
  - destruct (read_then_write_back [7; 0xEF; 0xBE; 0xAD; 0xDE; 7] 0 Hb)
      as (_ & _ & _ & _ & Hbool); [lia|vm_compute; discriminate|].
    destruct (Hbool false) as (c & Hc & Hr & Hw); [vm_compute; discriminate|].
    injection Hc as <-. split; [exact Hr|exact Hw].
Defined.

(** ** Sequences of writes *)

(** X9.  Values written one after the other do not disturb each other:
    for a reader that looks at its window only and a writer that writes in
    its window only (each scalar reader and writer of the codec is one), a
    write at the cursor behind a value leaves what the reader returns for
    that value unchanged. *)
Theorem later_write_keeps_earlier_value {T1 T2 : Type}
  (read1 : list Z -> Z -> T1 -> option (read_result T1))
  (write2 : list Z -> Z -> T2 -> option (list Z * Z)) (size1 size2 : Z) :
  0 <= size1 ->
  Frame.reads_window read1 size1 ->
  Frame.writes_window write2 size2 ->
  forall (data : list Z) (p : Z) (old : T1) (w : T2) (data' : list Z)
         (p' : Z),
    0 <= p ->
    write2 data (p + size1) w = Some (data', p') ->
    read1 data' p old = read1 data p old.
Proof.
  intros Hs1 Hread Hwrite data p old w data' p' Hp Hw.
  destruct (Hwrite data (p + size1) w) as [_ Hframe].
  destruct (Hframe data' p' Hw) as (_ & Hlen & Htake & _).
  apply Hread; [exact Hlen|].
  unfold Slice.sub. rewrite Hlen.
  case_decide; [|reflexivity]. f_equal.
  replace (Z.to_nat (p + size1 - p)) with (Z.to_nat size1) by lia.
  rewrite !take_drop_commute.
  replace (Z.to_nat p + Z.to_nat size1)%nat with (Z.to_nat (p + size1))
    by lia.
  rewrite Htake. reflexivity.
Qed.

Lemma later_write_keeps_earlier_value_witness :
  ReadUint32 [7; 0xEF; 0xBE; 0xAD; 0xDE; 0x40; 0x9C; 7] 1 0
  = ReadUint32 [7; 0xEF; 0xBE; 0xAD; 0xDE; 0; 0; 7] 1 0.
Proof.
  apply (later_write_keeps_earlier_value ReadUint32 WriteUint16 4 2
           ltac:(lia)
           (reads_cells_window _ 4 _ ReadUint32_cells)
           WriteUint16_window
           [7; 0xEF; 0xBE; 0xAD; 0xDE; 0; 0; 7] 1 0 40000
           [7; 0xEF; 0xBE; 0xAD; 0xDE; 0x40; 0x9C; 7] 7).
  - lia.
  - vm_compute. reflexivity.
Defined.

(** * Further properties of the tags and the filters *)

Section PittleSymmetry.
Import Tag Wire.

Lemma pittle_swap fromAddress fromPort toAddress toPort packetLength :
  pittle fromAddress fromPort toAddress toPort packetLength
  = pittle toAddress toPort fromAddress fromPort packetLength.
Proof.
  unfold pittle, pittle_input. rewrite !byte_sum_app.
  replace (byte_sum fromAddress
           + (byte_sum (le_bytes 2 fromPort)
              + (byte_sum toAddress
                 + (byte_sum (le_bytes 2 toPort)
                    + byte_sum (le_bytes 4 packetLength)))))
    with (byte_sum toAddress
          + (byte_sum (le_bytes 2 toPort)
             + (byte_sum fromAddress
                + (byte_sum (le_bytes 2 fromPort)
                   + byte_sum (le_bytes 4 packetLength))))) by lia.
  reflexivity.
Qed.

(** Without room for two bytes [GeneratePittle] panics. *)
Lemma GeneratePittle_short output fromAddress fromPort toAddress toPort
  packetLength :
  Slice.len output < 2 ->
  GeneratePittle output fromAddress fromPort toAddress toPort packetLength
  = None.
Proof.
  intros Hlen. unfold GeneratePittle.
  repeat match goal with
    | |- (?m ≫= _) = None =>
        destruct m eqn:?; cbn [mbind option_bind]; [|reflexivity]
    end.
  cbv zeta.
  repeat match goal with
    | |- (?m ≫= _) = None =>
        destruct m eqn:?; cbn [mbind option_bind]; [|reflexivity]
    end.
  apply store_None. bounds. lia.
Qed.

End PittleSymmetry.

(** X10.  The Pittle tag does not tell the direction of a packet:
    [GeneratePittle] gives the same result when the from-address and port are
    exchanged with the to-address and port, for every output buffer
    (including one too short, on which both calls panic). *)
Theorem GeneratePittle_symmetric (output fromAddress : list Z) (fromPort : Z)
  (toAddress : list Z) (toPort packetLength : Z) :
  Tag.GeneratePittle output fromAddress fromPort toAddress toPort packetLength
  = Tag.GeneratePittle output toAddress toPort fromAddress fromPort
      packetLength.
Proof.
  destruct (decide (Slice.len output < 2)) as [Hs|Hl].
  - rewrite !GeneratePittle_short by trivial. reflexivity.
  - assert (Hn : (2 <= length output)%nat) by (unfold Slice.len in Hl; lia).
    do 2 (destruct output as [|? output]; [simpl length in Hn; lia|]).
    rewrite !GeneratePittle_cons, pittle_swap. reflexivity.
Qed.

Section FilterComposition.
Import Filter.

(** What an accepting run of the advanced filter says of the packet. *)
Lemma AdvancedPacketFilter_true data magic fromAddress fromPort toAddress
  toPort packetLength :
  Slice.len data = packetLength -> packetLength <= max_int ->
  AdvancedPacketFilter data magic fromAddress fromPort toAddress toPort
    packetLength = Some true ->
  18 <= packetLength
  /\ take 15 (drop 1 data)
     = Wire.chonkle magic fromAddress fromPort toAddress toPort packetLength
  /\ take 2 (drop (Z.to_nat (packetLength - 2)) data)
     = Wire.pittle fromAddress fromPort toAddress toPort packetLength.
Proof.
  intros Hlen Hmax Hacc.
  destruct (decide (packetLength < 18)) as [Hs|Hl].
  - exfalso. revert Hacc. unfold AdvancedPacketFilter.
    rewrite decide_True by trivial. discriminate.
  - rewrite AdvancedPacketFilter_eval in Hacc by (trivial; lia).
    injection Hacc as Hacc. apply andb_true_iff in Hacc as [Hc Hp].
    apply bool_decide_eq_true in Hc. apply bool_decide_eq_true in Hp.
    split; [lia|]. split; trivial.
Qed.

End FilterComposition.

(** X11.  The advanced filter is stricter than the basic one on the tag
    bytes: every packet (of the stated length) that [AdvancedPacketFilter]
    accepts for some context and whose byte 0 lies in [0x01, 0x63] is
    accepted by [BasicPacketFilter]. *)
Theorem AdvancedPacketFilter_implies_basic (data magic fromAddress : list Z)
  (fromPort : Z) (toAddress : list Z) (toPort packetLength d0 : Z) :
  Slice.len data = packetLength ->
  packetLength <= max_int ->
  Slice.load data 0 = Some d0 ->
  0x01 <= d0 <= 0x63 ->
  Filter.AdvancedPacketFilter data magic fromAddress fromPort toAddress
    toPort packetLength = Some true ->
  Filter.BasicPacketFilter data packetLength = Some true.
Proof.
  intros Hlen Hmax H0 Hd0 Hacc.
  destruct (AdvancedPacketFilter_true _ _ _ _ _ _ _ Hlen Hmax Hacc)
    as (Hpl & Hc & _).
  destruct data as [|x0 data]; [discriminate H0|].
  injection H0 as ->. cbn [drop] in Hc. rewrite drop_0 in Hc.
  rewrite <- (take_drop 15 data), Hc.
  apply BasicPacketFilter_chonkle_table; trivial.
Qed.

Lemma AdvancedPacketFilter_implies_basic_witness :
  Filter.BasicPacketFilter
    [1; 45; 216; 24; 33; 80; 96; 162; 7; 83; 126; 182; 41; 43; 214; 134;
     0; 0; 59; 181] 20 = Some true.
Proof.
  apply (AdvancedPacketFilter_implies_basic
           [1; 45; 216; 24; 33; 80; 96; 162; 7; 83; 126; 182; 41; 43; 214;
            134; 0; 0; 59; 181]
           [0; 0; 0; 0; 0; 0; 0; 0] [1; 2; 3; 4] 1000 [5; 6; 7; 8] 2000 20 1).
  - reflexivity.
  - vm_compute. discriminate.
  - reflexivity.
  - lia.
  - vm_compute. reflexivity.
Defined.

(** X12.  The advanced filter looks at the two tag regions only: changing
    byte 0 or any payload byte, at an offset in [16, packetLength - 2), of a
    packet of the stated length does not change its verdict. *)
Theorem AdvancedPacketFilter_ignores_rest (data magic fromAddress : list Z)
  (fromPort : Z) (toAddress : list Z) (toPort packetLength i c : Z) :
  Slice.len data = packetLength ->
  packetLength <= max_int ->
  i = 0 \/ 16 <= i < packetLength - 2 ->
  Filter.AdvancedPacketFilter (<[Z.to_nat i := c]> data) magic fromAddress
    fromPort toAddress toPort packetLength
  = Filter.AdvancedPacketFilter data magic fromAddress fromPort toAddress
      toPort packetLength.
Proof.
  intros Hlen Hmax Hi.
  destruct (decide (packetLength < 18)) as [Hs|Hl].
  - unfold Filter.AdvancedPacketFilter. rewrite !decide_True by trivial.
    reflexivity.
  - rewrite !AdvancedPacketFilter_eval
      by (unfold Slice.len in *; rewrite ?length_insert; trivial; lia).
    do 2 f_equal.
    + f_equal. destruct Hi as [->|Hi].
      * rewrite drop_insert_lt by (change (Z.to_nat 0) with 0%nat; lia).
        reflexivity.
      * rewrite drop_insert_ge, take_insert_ge by lia. reflexivity.
    + f_equal. rewrite drop_insert_lt by lia. reflexivity.
Qed.

Lemma AdvancedPacketFilter_ignores_rest_witness :
  let good := [1; 45; 216; 24; 33; 80; 96; 162; 7; 83; 126; 182; 41; 43; 214;
               134; 0; 0; 59; 181] in
  Filter.AdvancedPacketFilter (<[Z.to_nat 17 := 200]> good)
    [0; 0; 0; 0; 0; 0; 0; 0] [1; 2; 3; 4] 1000 [5; 6; 7; 8] 2000 20
  = Filter.AdvancedPacketFilter good
      [0; 0; 0; 0; 0; 0; 0; 0] [1; 2; 3; 4] 1000 [5; 6; 7; 8] 2000 20.
Proof.
  intros good.
  apply (AdvancedPacketFilter_ignores_rest good).
  - reflexivity.
  - vm_compute. discriminate.
  - right. lia.
Defined.



(** * Further properties of the address codec *)

Section AddressMore.
Import Net Address.





End AddressMore.



(** X15.  For a buffer that starts with tag 2, [ReadAddress] returns an
    address whose [IP] is the whole of [buffer[1:]], to the end of the
    buffer, and whose port is read at offsets 17 and 18: the [IP] has at
    least 18 bytes (the sixteen address bytes, the two port bytes and what
    follows), so it is never equal, as a [net.IP], to a 16-byte address. *)
Theorem ReadAddress_IPv6_reads_to_end (buffer : list Z) (p0 p1 : Z) :
  Slice.load buffer 0 = Some Address.IPAddressIPv6 ->
  Slice.load buffer 17 = Some p0 ->
  Slice.load buffer 18 = Some p1 ->
  Address.ReadAddress buffer
  = Some (Some (Net.MkUDPAddr (drop 1 buffer)
                  (to_int (Z.lor p0 (LittleEndian.shl16 p1 8)))))
  /\ (18 <= length (drop 1 buffer))%nat
  /\ (forall ip, length ip = Net.IPv6len ->
                 Net.Equal ip (drop 1 buffer) = false).
Proof.
  intros H0 H17 H18.
  assert (Hlen : (19 <= length buffer)%nat).
  { apply load_Some_len in H18. unfold Slice.len in H18. lia. }
  do 19 (destruct buffer as [|? buffer]; [simpl length in Hlen; lia|]).
  injection H0 as ->. injection H17 as ->. injection H18 as ->.
  split; [|split].
  - unfold Address.ReadAddress. slice_eval.
    rewrite decide_False by discriminate.
    rewrite decide_True by reflexivity.
    rewrite (from_nat _ 1) by (cbn [length]; lia).
    cbn [drop mbind option_bind].
    rewrite (from_nat _ 17) by (cbn [length]; lia).
    cbn [mbind option_bind drop]. rewrite Uint16_cons. reflexivity.
  - cbn [drop length]. lia.
  - intros ip Hip. unfold Net.Equal, Net.IPv4len, Net.IPv6len in *.
    cbn [drop length].
    rewrite !decide_False; trivial; lia.
Qed.

Lemma ReadAddress_IPv6_reads_to_end_witness :
  Address.ReadAddress
    [2; 0x20; 0x01; 0x0d; 0xb8; 0; 0; 0; 0; 0; 0; 0; 0; 0; 0; 0; 1;
     0x40; 0x9C]
  = Some (Some (Net.MkUDPAddr
                  [0x20; 0x01; 0x0d; 0xb8; 0; 0; 0; 0; 0; 0; 0; 0; 0; 0; 0;
                   1; 0x40; 0x9C] 40000)).
Proof.
  destruct (ReadAddress_IPv6_reads_to_end
              [2; 0x20; 0x01; 0x0d; 0xb8; 0; 0; 0; 0; 0; 0; 0; 0; 0; 0; 0; 1;
               0x40; 0x9C] 0x40 0x9C) as (H & _).
  - reflexivity.
  - reflexivity.
  - reflexivity.
  - exact H.
Defined.

(** X16.  [WriteAddress] does not validate the address: one whose [IP] is
    empty (the nil [net.IP]) is not IPv4 for [To4], so it is written as
    IPv6: tag 2 at offset 0 and the port at offsets 17 and 18, while the
    sixteen address bytes at offsets 1 to 16 are left as the buffer had
    them. *)
Theorem WriteAddress_empty_IP (buffer : list Z) (port : Z) :
  19 <= Slice.len buffer ->
  Address.WriteAddress buffer (Some (Net.MkUDPAddr [] port))
  = Some (<[18%nat := to_byte (Z.shiftr port 8)]>
            (<[17%nat := to_byte (Z.land port 0xFF)]>
               (<[0%nat := Address.IPAddressIPv6]> buffer))).
Proof.
  intros Hlen. unfold Slice.len in Hlen.
  do 19 (destruct buffer as [|? buffer]; [simpl length in Hlen; lia|]).
  unfold Address.WriteAddress. cbn [Net.IP Net.Port].
  change (Net.To4 []) with (@None (list Z)). cbv iota beta.
  slice_eval. rewrite (from_nat _ 1) by (cbn [length]; lia).
  cbn [mbind option_bind drop]. cbv zeta.
  unfold Slice.rejoin, Slice.copy. to_nat_literals.
  rewrite take_nil. cbn [length take drop app].
  slice_eval. reflexivity.
Qed.

Lemma WriteAddress_empty_IP_witness :
  Address.WriteAddress (replicate 19 9) (Some (Net.MkUDPAddr [] 40000))
  = Some ([2] ++ replicate 16 9 ++ [0x40; 0x9C]).
Proof.
  rewrite (WriteAddress_empty_IP (replicate 19 9) 40000).
  - vm_compute. reflexivity.
  - vm_compute. discriminate.
Defined.
